(** * Red-black tree of [RedBlackTree.ts]: heap model and verification

    The TypeScript class keeps its nodes as mutable objects linked by
    [left], [right] and [parent] references, with one shared sentinel
    object [NIL].  The embedding below keeps that shape: objects live in
    an arena ([list RBNode], an address is an index), a reference is an
    [option addr] ([None] is JavaScript's [null]), reading or writing a
    field through [null] raises [TypeError], and every loop or recursion
    of the source takes a fuel argument ([OutOfFuel] stands for a
    computation that has not finished within the given number of
    iterations).  Keys are integers ordered by [Z.lt].

    The file has four parts: the model of the class, function by
    function; trees and zippers labelled with arena slots, which say
    which tree an arena represents ([Rep]); the proof that each method
    computes on the arena what a function on trees computes
    ([rep_insert], [rep_leftRotate], [rep_inorder], ...); and the
    properties of the class that follow from the tree functions. *)

From stdpp Require Import base tactics option list numbers sorting.
From Stdlib Require Import ZArith Lia.

Local Open Scope Z_scope.
Local Open Scope nat_scope.

(** ** Results of a call *)

Inductive result (A : Type) : Type :=
  | Ok (a : A)
  | TypeError
  | OutOfFuel.
Arguments Ok {A} a.
Arguments TypeError {A}.
Arguments OutOfFuel {A}.

Definition rbind {A B} (m : result A) (f : A → result B) : result B :=
  match m with
  | Ok a => f a
  | TypeError => TypeError
  | OutOfFuel => OutOfFuel
  end.

Notation "x ←r m ; f" := (rbind m (λ x, f))
  (at level 20, m at level 100, f at level 200, right associativity,
   format "x  ←r  m ;  '/' f").
Notation "' p ←r m ; f" := (rbind m (λ p, f))
  (at level 20, p pattern, m at level 100, f at level 200,
   right associativity, format "' p  ←r  m ;  '/' f").

(** ** Data model (lines 12-37 of the source) *)

Inductive Color := RED | BLACK.

Global Instance Color_eq_dec : EqDecision Color.
Proof. solve_decision. Defined.

Abbreviation addr := nat.

(** A reference: [None] is [null], [Some a] the object at arena slot [a]. *)
Abbreviation ref := (option nat).

Record RBNode := mkNode {
  key : option Z;
  color : Color;
  left : ref;
  right : ref;
  parent : ref;
}.

Record RedBlackTree := mkTree {
  heap : list RBNode;
  root : addr;
}.

(** The constructor allocates the sentinel first, so [this.NIL] is the
    object at slot [0]; the field is never assigned again. *)
Definition NIL : addr := 0.

(** [createNilNode], lines 43-51. *)
Definition createNilNode : RBNode :=
  mkNode None BLACK None None None.

(** [constructor], lines 33-37. *)
Definition new_tree : RedBlackTree :=
  mkTree [createNilNode] NIL.

(** [createNode], lines 58-66. *)
Definition createNode (k : Z) : RBNode :=
  mkNode (Some k) RED (Some NIL) (Some NIL) None.

(** ** Field access *)

(** Dereferencing [null] raises [TypeError].  (A slot outside the arena
    cannot be named by a JavaScript reference; it is mapped to the same
    error.) *)
Definition deref (st : RedBlackTree) (p : ref) : result RBNode :=
  match p with
  | None => TypeError
  | Some a => match heap st !! a with Some n => Ok n | None => TypeError end
  end.

Definition rd {B} (f : RBNode → B) (st : RedBlackTree) (p : ref) : result B :=
  n ←r deref st p; Ok (f n).

Definition wr (upd : RBNode → RBNode) (st : RedBlackTree) (p : ref)
  : result RedBlackTree :=
  match p with
  | None => TypeError
  | Some a =>
    match heap st !! a with
    | Some n => Ok (mkTree (<[a := upd n]> (heap st)) (root st))
    | None => TypeError
    end
  end.

Definition set_color (c : Color) (n : RBNode) : RBNode :=
  mkNode (key n) c (left n) (right n) (parent n).
Definition set_left (l : ref) (n : RBNode) : RBNode :=
  mkNode (key n) (color n) l (right n) (parent n).
Definition set_right (r : ref) (n : RBNode) : RBNode :=
  mkNode (key n) (color n) (left n) r (parent n).
Definition set_parent (p : ref) (n : RBNode) : RBNode :=
  mkNode (key n) (color n) (left n) (right n) p.

Definition set_root (a : addr) (st : RedBlackTree) : RedBlackTree :=
  mkTree (heap st) a.

(** Allocation of a fresh object: it takes the next free slot. *)
Definition alloc (st : RedBlackTree) (n : RBNode) : RedBlackTree * addr :=
  (mkTree (heap st ++ [n]) (root st), length (heap st)).

(** JavaScript's [<] on keys; the sentinel's [null] key converts to [0]. *)
Definition to_number (k : option Z) : Z :=
  match k with Some z => z | None => 0%Z end.
Definition key_lt (a b : option Z) : bool := (to_number a <? to_number b)%Z.

(** ** Rotations *)

(** [leftRotate], lines 188-208. *)
Definition leftRotate (st : RedBlackTree) (x : ref) : result RedBlackTree :=
  y ←r rd right st x;
  yl ←r rd left st y;
  st ←r wr (set_right yl) st x;
  yl ←r rd left st y;
  st ←r (if decide (yl ≠ Some NIL) then wr (set_parent x) st yl else Ok st);
  xp ←r rd parent st x;
  st ←r wr (set_parent xp) st y;
  xp ←r rd parent st x;
  st ←r match xp with
        | None => match y with Some ya => Ok (set_root ya st) | None => TypeError end
        | Some _ =>
          xpl ←r rd left st xp;
          if decide (x = xpl) then wr (set_left y) st xp
          else wr (set_right y) st xp
        end;
  st ←r wr (set_left x) st y;
  wr (set_parent y) st x.

(** [rightRotate], lines 214-234. *)
Definition rightRotate (st : RedBlackTree) (x : ref) : result RedBlackTree :=
  y ←r rd left st x;
  yr ←r rd right st y;
  st ←r wr (set_left yr) st x;
  yr ←r rd right st y;
  st ←r (if decide (yr ≠ Some NIL) then wr (set_parent x) st yr else Ok st);
  xp ←r rd parent st x;
  st ←r wr (set_parent xp) st y;
  xp ←r rd parent st x;
  st ←r match xp with
        | None => match y with Some ya => Ok (set_root ya st) | None => TypeError end
        | Some _ =>
          xpr ←r rd right st xp;
          if decide (x = xpr) then wr (set_right y) st xp
          else wr (set_left y) st xp
        end;
  st ←r wr (set_right x) st y;
  wr (set_parent y) st x.

(** ** Insertion fix-up *)

(** [u !== null && u.color === Color.RED], lines 127 and 152. *)
Definition is_red (st : RedBlackTree) (u : ref) : result bool :=
  match u with
  | None => Ok false
  | Some _ => c ←r rd color st u; Ok (bool_decide (c = RED))
  end.

(** Case 1, lines 129-132 and 154-157. *)
Definition fix_case1 (st : RedBlackTree) (k u : ref)
  : result (RedBlackTree * ref) :=
  st ←r wr (set_color BLACK) st u;
  kp ←r rd parent st k;
  st ←r wr (set_color BLACK) st kp;
  kp ←r rd parent st k;
  kpp ←r rd parent st kp;
  st ←r wr (set_color RED) st kpp;
  kp ←r rd parent st k;
  kpp ←r rd parent st kp;
  Ok (st, kpp).

(** Case 3 when the parent hangs on the right, lines 140-146. *)
Definition fix_case3_right (st : RedBlackTree) (k : ref)
  : result RedBlackTree :=
  kp ←r rd parent st k;
  match kp with
  | None => Ok st
  | Some _ =>
    st ←r wr (set_color BLACK) st kp;
    kp ←r rd parent st k;
    kpp ←r rd parent st kp;
    match kpp with
    | None => Ok st
    | Some _ =>
      st ←r wr (set_color RED) st kpp;
      kp ←r rd parent st k;
      kpp ←r rd parent st kp;
      leftRotate st kpp
    end
  end.

(** Case 3 when the parent hangs on the left, lines 165-171. *)
Definition fix_case3_left (st : RedBlackTree) (k : ref)
  : result RedBlackTree :=
  kp ←r rd parent st k;
  match kp with
  | None => Ok st
  | Some _ =>
    st ←r wr (set_color BLACK) st kp;
    kp ←r rd parent st k;
    kpp ←r rd parent st kp;
    match kpp with
    | None => Ok st
    | Some _ =>
      st ←r wr (set_color RED) st kpp;
      kp ←r rd parent st k;
      kpp ←r rd parent st kp;
      rightRotate st kpp
    end
  end.

(** One pass through the body of the [while] loop, lines 123-173. *)
Definition fixInsert_body (st : RedBlackTree) (k : ref)
  : result (RedBlackTree * ref) :=
  kp ←r rd parent st k;
  kpp ←r rd parent st kp;
  gr ←r rd right st kpp;
  if decide (kp = gr) then
    u ←r rd left st kpp;
    red ←r is_red st u;
    if red then fix_case1 st k u
    else
      kp ←r rd parent st k;
      kpl ←r rd left st kp;
      '(st, k) ←r (if decide (k = kpl)
                   then st ←r rightRotate st kp; Ok (st, kp)
                   else Ok (st, k));
      st ←r fix_case3_right st k;
      Ok (st, k)
  else
    u ←r rd right st kpp;
    red ←r is_red st u;
    if red then fix_case1 st k u
    else
      kp ←r rd parent st k;
      kpr ←r rd right st kp;
      '(st, k) ←r (if decide (k = kpr)
                   then st ←r leftRotate st kp; Ok (st, kp)
                   else Ok (st, k));
      st ←r fix_case3_left st k;
      Ok (st, k).

(** The loop condition, line 122. *)
Definition fixInsert_cond (st : RedBlackTree) (k : ref) : result bool :=
  kp ←r rd parent st k;
  match kp with
  | None => Ok false
  | Some _ => c ←r rd color st kp; Ok (bool_decide (c = RED))
  end.

(** The [while] loop of [fixInsert], lines 122-178. *)
Fixpoint fixInsert_loop (fuel : nat) (st : RedBlackTree) (k : ref)
  : result RedBlackTree :=
  match fuel with
  | 0 => OutOfFuel
  | S fuel =>
    go ←r fixInsert_cond st k;
    if go : bool then
      '(st, k) ←r fixInsert_body st k;
      if decide (k = Some (root st)) then Ok st
      else fixInsert_loop fuel st k
    else Ok st
  end.

(** [fixInsert], lines 118-182. *)
Definition fixInsert (fuel : nat) (st : RedBlackTree) (k : ref)
  : result RedBlackTree :=
  st ←r fixInsert_loop fuel st k;
  wr (set_color BLACK) st (Some (root st)).

(** ** Insertion *)

(** The descent loop of [insert], lines 79-86; it returns [y]. *)
Fixpoint insert_descend (fuel : nat) (st : RedBlackTree) (k : option Z)
  (y x : ref) : result ref :=
  match fuel with
  | 0 => OutOfFuel
  | S fuel =>
    if decide (x ≠ Some NIL) then
      xk ←r rd key st x;
      if key_lt k xk then
        xl ←r rd left st x; insert_descend fuel st k x xl
      else
        xr ←r rd right st x; insert_descend fuel st k x xr
    else Ok y
  end.

(** [insert], lines 72-112. *)
Definition insert (fuel : nat) (st : RedBlackTree) (k : Z)
  : result RedBlackTree :=
  let '(st, newNode) := alloc st (createNode k) in
  y ←r insert_descend fuel st (Some k) None (Some (root st));
  st ←r wr (set_parent y) st (Some newNode);
  st ←r match y with
        | None => Ok (set_root newNode st)
        | Some _ =>
          yk ←r rd key st y;
          if key_lt (Some k) yk then wr (set_left (Some newNode)) st y
          else wr (set_right (Some newNode)) st y
        end;
  np ←r rd parent st (Some newNode);
  match np with
  | None => wr (set_color BLACK) st (Some newNode)
  | Some _ =>
    npp ←r rd parent st np;
    match npp with
    | None => Ok st
    | Some _ => fixInsert fuel st (Some newNode)
    end
  end.

(** ** Traversals *)

(** [preorderTraversalHelper], lines 251-257. *)
Fixpoint preorderTraversalHelper (fuel : nat) (st : RedBlackTree)
  (node : ref) (res : list (option Z)) : result (list (option Z)) :=
  match fuel with
  | 0 => OutOfFuel
  | S fuel =>
    if decide (node ≠ Some NIL) then
      nk ←r rd key st node;
      let res := res ++ [nk] in
      nl ←r rd left st node;
      res ←r preorderTraversalHelper fuel st nl res;
      nr ←r rd right st node;
      preorderTraversalHelper fuel st nr res
    else Ok res
  end.

(** [preorderTraversal], lines 240-244. *)
Definition preorderTraversal (fuel : nat) (st : RedBlackTree)
  : result (list (option Z)) :=
  preorderTraversalHelper fuel st (Some (root st)) [].

(** [inorderTraversalHelper], lines 274-280. *)
Fixpoint inorderTraversalHelper (fuel : nat) (st : RedBlackTree)
  (node : ref) (res : list (option Z)) : result (list (option Z)) :=
  match fuel with
  | 0 => OutOfFuel
  | S fuel =>
    if decide (node ≠ Some NIL) then
      nl ←r rd left st node;
      res ←r inorderTraversalHelper fuel st nl res;
      nk ←r rd key st node;
      let res := res ++ [nk] in
      nr ←r rd right st node;
      inorderTraversalHelper fuel st nr res
    else Ok res
  end.

(** [inorderTraversal], lines 263-267. *)
Definition inorderTraversal (fuel : nat) (st : RedBlackTree)
  : result (list (option Z)) :=
  inorderTraversalHelper fuel st (Some (root st)) [].

(** [postorderTraversalHelper], lines 297-303. *)
Fixpoint postorderTraversalHelper (fuel : nat) (st : RedBlackTree)
  (node : ref) (res : list (option Z)) : result (list (option Z)) :=
  match fuel with
  | 0 => OutOfFuel
  | S fuel =>
    if decide (node ≠ Some NIL) then
      nl ←r rd left st node;
      res ←r postorderTraversalHelper fuel st nl res;
      nr ←r rd right st node;
      res ←r postorderTraversalHelper fuel st nr res;
      nk ←r rd key st node;
      Ok (res ++ [nk])
    else Ok res
  end.

(** [postorderTraversal], lines 286-290. *)
Definition postorderTraversal (fuel : nat) (st : RedBlackTree)
  : result (list (option Z)) :=
  postorderTraversalHelper fuel st (Some (root st)) [].

(** The [while] loop of [levelOrderTraversal], lines 317-328. *)
Fixpoint levelOrder_loop (fuel : nat) (st : RedBlackTree)
  (queue : list ref) (res : list (option Z)) : result (list (option Z)) :=
  match fuel with
  | 0 => OutOfFuel
  | S fuel =>
    match queue with
    | [] => Ok res
    | node :: queue =>
      nk ←r rd key st node;
      let res := res ++ [nk] in
      nl ←r rd left st node;
      let queue := if decide (nl ≠ Some NIL) then queue ++ [nl] else queue in
      nr ←r rd right st node;
      let queue := if decide (nr ≠ Some NIL) then queue ++ [nr] else queue in
      levelOrder_loop fuel st queue res
    end
  end.

(** [levelOrderTraversal], lines 309-331. *)
Definition levelOrderTraversal (fuel : nat) (st : RedBlackTree)
  : result (list (option Z)) :=
  if decide (root st = NIL) then Ok []
  else levelOrder_loop fuel st [Some (root st)] [].

(** ** Queries *)

(** [getDepthHelper], lines 346-355. *)
Fixpoint getDepthHelper (fuel : nat) (st : RedBlackTree) (node : ref)
  : result nat :=
  match fuel with
  | 0 => OutOfFuel
  | S fuel =>
    if decide (node = Some NIL) then Ok 0
    else
      nl ←r rd left st node;
      leftDepth ←r getDepthHelper fuel st nl;
      nr ←r rd right st node;
      rightDepth ←r getDepthHelper fuel st nr;
      Ok (Nat.max leftDepth rightDepth + 1)
  end.

(** [getDepth], lines 337-339. *)
Definition getDepth (fuel : nat) (st : RedBlackTree) : result nat :=
  getDepthHelper fuel st (Some (root st)).

(** [searchHelper], lines 372-382; [key === node.key] is strict equality,
    so no conversion of a [null] key takes place there. *)
Fixpoint searchHelper (fuel : nat) (st : RedBlackTree) (node : ref)
  (k : option Z) : result ref :=
  match fuel with
  | 0 => OutOfFuel
  | S fuel =>
    if decide (node = Some NIL) then Ok node
    else
      nk ←r rd key st node;
      if decide (k = nk) then Ok node
      else if key_lt k nk then
        nl ←r rd left st node; searchHelper fuel st nl k
      else
        nr ←r rd right st node; searchHelper fuel st nr k
  end.

(** [search], lines 362-364. *)
Definition search (fuel : nat) (st : RedBlackTree) (k : Z) : result ref :=
  searchHelper fuel st (Some (root st)) (Some k).

(** [getMinimumNode], lines 398-404. *)
Fixpoint getMinimumNode (fuel : nat) (st : RedBlackTree) (current : ref)
  : result ref :=
  match fuel with
  | 0 => OutOfFuel
  | S fuel =>
    cl ←r rd left st current;
    if decide (cl ≠ Some NIL) then getMinimumNode fuel st cl
    else Ok current
  end.

(** [getMinimum], lines 388-391. *)
Definition getMinimum (fuel : nat) (st : RedBlackTree)
  : result (option Z) :=
  node ←r getMinimumNode fuel st (Some (root st));
  if decide (node = Some NIL) then Ok None else rd key st node.

(** [getMaximumNode], lines 420-426. *)
Fixpoint getMaximumNode (fuel : nat) (st : RedBlackTree) (current : ref)
  : result ref :=
  match fuel with
  | 0 => OutOfFuel
  | S fuel =>
    cr ←r rd right st current;
    if decide (cr ≠ Some NIL) then getMaximumNode fuel st cr
    else Ok current
  end.

(** [getMaximum], lines 410-413. *)
Definition getMaximum (fuel : nat) (st : RedBlackTree)
  : result (option Z) :=
  node ←r getMaximumNode fuel st (Some (root st));
  if decide (node = Some NIL) then Ok None else rd key st node.

(** [isEmpty], lines 432-434. *)
Definition isEmpty (st : RedBlackTree) : bool :=
  bool_decide (root st = NIL).

(** [clear], lines 439-441. *)
Definition clear (st : RedBlackTree) : RedBlackTree :=
  set_root NIL st.

(** A run of [insert] calls with the same fuel for each call. *)
Fixpoint insertAll (fuel : nat) (st : RedBlackTree) (ks : list Z)
  : result RedBlackTree :=
  match ks with
  | [] => Ok st
  | k :: ks => st ←r insert fuel st k; insertAll fuel st ks
  end.

(** * Trees represented by an arena *)

(** ** Trees labelled with the arena slots of their nodes *)

Inductive tree :=
  | E
  | T (c : Color) (l : tree) (a : addr) (k : Z) (r : tree).

(** The reference stored in a child field that leads to [t]. *)
Definition root_of (t : tree) : addr :=
  match t with E => NIL | T _ _ a _ _ => a end.

(** One step of a path from a node up to the root: the parent node
    together with the sibling subtree.  [FL] is a parent whose left
    child is the hole, [FR] one whose right child is the hole. *)
Inductive frame :=
  | FL (c : Color) (a : addr) (k : Z) (r : tree)
  | FR (c : Color) (l : tree) (a : addr) (k : Z).

(** A path, innermost parent first. *)
Definition ctx := list frame.

Definition frame_addr (f : frame) : addr :=
  match f with FL _ a _ _ => a | FR _ _ a _ => a end.
Definition frame_color (f : frame) : Color :=
  match f with FL c _ _ _ => c | FR c _ _ _ => c end.
Definition frame_paint (c : Color) (f : frame) : frame :=
  match f with FL _ a k r => FL c a k r | FR _ l a k => FR c l a k end.

Definition plug1 (f : frame) (t : tree) : tree :=
  match f with
  | FL c a k r => T c t a k r
  | FR c l a k => T c l a k t
  end.

Fixpoint plug (z : ctx) (t : tree) : tree :=
  match z with
  | [] => t
  | f :: z => plug z (plug1 f t)
  end.

Definition ctx_top (z : ctx) : ref :=
  match z with [] => None | f :: _ => Some (frame_addr f) end.

Fixpoint ctx_root (z : ctx) (child : addr) : addr :=
  match z with [] => child | f :: z => ctx_root z (frame_addr f) end.

(** *** The objects a tree stands for *)

Definition cell := (addr * RBNode)%type.

Definition node_of (p : ref) (c : Color) (l : addr) (k : Z) (r : addr)
  : RBNode :=
  mkNode (Some k) c (Some l) (Some r) p.

Fixpoint cells (p : ref) (t : tree) : list cell :=
  match t with
  | E => []
  | T c l a k r =>
    (a, node_of p c (root_of l) k (root_of r))
      :: cells (Some a) l ++ cells (Some a) r
  end.

Fixpoint ctx_cells (z : ctx) (child : addr) : list cell :=
  match z with
  | [] => []
  | FL c a k r :: z =>
    (a, node_of (ctx_top z) c child k (root_of r))
      :: cells (Some a) r ++ ctx_cells z a
  | FR c l a k :: z =>
    (a, node_of (ctx_top z) c (root_of l) k child)
      :: cells (Some a) l ++ ctx_cells z a
  end.

Definition zcells (z : ctx) (t : tree) : list cell :=
  ctx_cells z (root_of t) ++ cells (ctx_top z) t.

(** Every listed object is in the arena with the listed fields, and the
    listed slots are pairwise different. *)
Definition holds (h : list RBNode) (cs : list cell) : Prop :=
  Forall (λ c, h !! c.1 = Some c.2) cs ∧ NoDup cs.*1.

(** The arena and the root field represent the tree [plug z t]: the
    sentinel has the fields the constructor gave it, and the nodes of the
    tree are distinct objects, none of them the sentinel. *)
Record Rep_z (st : RedBlackTree) (z : ctx) (t : tree) : Prop := mkRep {
  rep_cells : holds (heap st) ((NIL, createNilNode) :: zcells z t);
  rep_root : root st = ctx_root z (root_of t);
}.

Definition Rep (st : RedBlackTree) (t : tree) : Prop := Rep_z st [] t.

(** *** Pure functions on trees *)

Fixpoint inorder (t : tree) : list Z :=
  match t with E => [] | T _ l _ k r => inorder l ++ k :: inorder r end.
Fixpoint preorder (t : tree) : list Z :=
  match t with E => [] | T _ l _ k r => k :: preorder l ++ preorder r end.
Fixpoint postorder (t : tree) : list Z :=
  match t with E => [] | T _ l _ k r => postorder l ++ postorder r ++ [k] end.
Fixpoint depth (t : tree) : nat :=
  match t with E => 0 | T _ l _ _ r => Nat.max (depth l) (depth r) + 1 end.
Fixpoint size (t : tree) : nat :=
  match t with E => 0 | T _ l _ _ r => size l + 1 + size r end.

Definition tree_color (t : tree) : Color :=
  match t with E => BLACK | T c _ _ _ _ => c end.

Definition paint (c : Color) (t : tree) : tree :=
  match t with E => E | T _ l a k r => T c l a k r end.

(** *** The red-black invariants *)

(** [rb t n]: no red node of [t] has a red child, and every path from the
    root of [t] down to a sentinel passes [n] black nodes (not counting
    the sentinel). *)
Fixpoint rb (t : tree) (n : nat) : Prop :=
  match t with
  | E => n = 0
  | T RED l _ _ r =>
    tree_color l = BLACK ∧ tree_color r = BLACK ∧ rb l n ∧ rb r n
  | T BLACK l _ _ r =>
    match n with 0 => False | S m => rb l m ∧ rb r m end
  end.

(** The five invariants of the header comment (lines 4-8), read off the
    arena: colors are [RED] or [BLACK] by typing. *)
Definition red_black (st : RedBlackTree) : Prop :=
  ∃ t n, Rep st t ∧ tree_color t = BLACK ∧ rb t n
         ∧ color <$> heap st !! NIL = Some BLACK.

(** *** Insertion on trees *)

(** The path walked by the descent loop of [insert]. *)
Fixpoint descend (k : Z) (z : ctx) (t : tree) : ctx :=
  match t with
  | E => z
  | T c l a x r =>
    if (k <? x)%Z then descend k (FL c a x r :: z) l
    else descend k (FR c l a x :: z) r
  end.

(** One pass through the body of the fix-up loop, on a zipper: [t] is
    the subtree at the current node [k], [f1] its parent, [f2] its
    grandparent and [z2] the path above.  The result is the zipper at the
    new current node. *)
Definition fix_step (f1 f2 : frame) (z2 : ctx) (t : tree) : ctx * tree :=
  match f2 with
  | FR cg u ga gk =>
    match u with
    | T RED ul ua uk ur =>
      (z2, T RED (T BLACK ul ua uk ur) ga gk (plug1 (frame_paint BLACK f1) t))
    | _ =>
      match f1, t with
      | FL cp pa pk s, T ck lk ka kk rk =>
        (FR BLACK (T RED u ga gk lk) ka kk :: z2, T cp rk pa pk s)
      | FL cp pa pk s, E => (f1 :: f2 :: z2, t)
      | FR cp s pa pk, _ => (FR BLACK (T RED u ga gk s) pa pk :: z2, t)
      end
    end
  | FL cg ga gk u =>
    match u with
    | T RED ul ua uk ur =>
      (z2, T RED (plug1 (frame_paint BLACK f1) t) ga gk (T BLACK ul ua uk ur))
    | _ =>
      match f1, t with
      | FR cp s pa pk, T ck lk ka kk rk =>
        (FL BLACK ka kk (T RED rk ga gk u) :: z2, T cp s pa pk lk)
      | FR cp s pa pk, E => (f1 :: f2 :: z2, t)
      | FL cp pa pk s, _ => (FL BLACK pa pk (T RED s ga gk u) :: z2, t)
      end
    end
  end.

(** The fix-up loop on a zipper, at most [n] passes; the result is the
    whole tree at loop exit. *)
Fixpoint fix_loop (n : nat) (z : ctx) (t : tree) : tree :=
  match n with
  | 0 => plug z t
  | S n =>
    match z with
    | f1 :: f2 :: z2 =>
      match frame_color f1 with
      | RED => let '(z', t') := fix_step f1 f2 z2 t in fix_loop n z' t'
      | BLACK => plug z t
      end
    | _ => plug z t
    end
  end.

Definition fix_z (z : ctx) (t : tree) : tree := fix_loop (length z) z t.

(** [insert] on trees; [a] is the slot of the new node. *)
Definition ins (a : addr) (k : Z) (t : tree) : tree :=
  match descend k [] t with
  | [] => T BLACK E a k E
  | [f] => plug [f] (T RED E a k E)
  | z => paint BLACK (fix_z z (T RED E a k E))
  end.

(** The side on which the descent loop leaves a node for key [k]. *)
Definition dir_ok (k : Z) (f : frame) : Prop :=
  match f with
  | FL _ _ x _ => (k <? x)%Z = true
  | FR _ _ _ x => (k <? x)%Z = false
  end.

(** The root node of the path is black. *)
Definition root_black (z : ctx) : Prop :=
  match last z with Some f => frame_color f = BLACK | None => True end.

(** *** Invariants of a zipper *)

Definition top_black (z : ctx) : Prop :=
  match z with f :: _ => frame_color f = BLACK | [] => False end.

Definition frame_sibling (f : frame) : tree :=
  match f with FL _ _ _ r => r | FR _ l _ _ => l end.

(** [rbz z n]: filling the hole of [z] with a black-rooted tree of black
    height [n] that satisfies [rb] gives a tree that satisfies [rb]. *)
Fixpoint rbz (z : ctx) (n : nat) : Prop :=
  match z with
  | [] => True
  | f :: z' =>
    rb (frame_sibling f) n
    ∧ match frame_color f with
      | BLACK => rbz z' (S n)
      | RED => tree_color (frame_sibling f) = BLACK ∧ top_black z' ∧ rbz z' n
      end
  end.

(** Keys to the left and to the right of the hole, in order. *)
Fixpoint lefts (z : ctx) : list Z :=
  match z with
  | [] => []
  | FL _ _ _ _ :: z => lefts z
  | FR _ l _ k :: z => lefts z ++ inorder l ++ [k]
  end.

Fixpoint rights (z : ctx) : list Z :=
  match z with
  | [] => []
  | FL _ _ k r :: z => k :: inorder r ++ rights z
  | FR _ _ _ _ :: z => rights z
  end.

(** *** Queries on trees *)

(** [searchHelper] on trees: the slot of the node it returns. *)
Fixpoint find (k : Z) (t : tree) : addr :=
  match t with
  | E => NIL
  | T _ l a x r =>
    if decide (k = x) then a
    else if (k <? x)%Z then find k l else find k r
  end.

(** [getMinimumNode] and [getMaximumNode] started at the node with slot
    [a], key [k] and left (right) subtree [l] ([r]). *)
Fixpoint leftmost (a : addr) (k : Z) (l : tree) : addr * Z :=
  match l with E => (a, k) | T _ l' a' k' _ => leftmost a' k' l' end.

Fixpoint rightmost (a : addr) (k : Z) (r : tree) : addr * Z :=
  match r with E => (a, k) | T _ _ a' k' r' => rightmost a' k' r' end.

(** Slots of the nodes of a tree. *)
Fixpoint addrs (t : tree) : list addr :=
  match t with E => [] | T _ l a _ r => a :: addrs l ++ addrs r end.

(** A call that terminates and returns [v]: every large enough bound on
    the number of iterations gives [Ok v]. *)
Definition returns {A} (f : nat → result A) (v : A) : Prop :=
  ∃ n, ∀ fuel, n ≤ fuel → f fuel = Ok v.

(** A call that terminates by raising [TypeError]. *)
Definition throws {A} (f : nat → result A) : Prop :=
  ∃ n, ∀ fuel, n ≤ fuel → f fuel = TypeError.

(** *** The queue of [levelOrderTraversal] as a list of subtrees *)

Definition queue_refs (q : list (ctx * tree)) : list (ref) :=
  (λ zt, Some (root_of zt.2)) <$> q.

Definition queue_keys (q : list (ctx * tree)) : list Z :=
  concat ((λ zt, inorder zt.2) <$> q).

Definition queue_size (q : list (ctx * tree)) : nat :=
  sum_list_with (λ zt, size zt.2) q.

Definition subtree (z : ctx) (t : tree) : list (ctx * tree) :=
  match t with E => [] | _ => [(z, t)] end.

(** *** Runs of the public operations *)

(** The calls a client can make. *)
Inductive op :=
  | OpInsert (k : Z)
  | OpSearch (k : Z)
  | OpPreorder
  | OpInorder
  | OpPostorder
  | OpLevelOrder
  | OpGetMinimum
  | OpGetMaximum
  | OpGetDepth
  | OpIsEmpty
  | OpClear.

(** The tree after a query.  The queries ([search], the four traversals,
    [getMinimum], [getMaximum], [getDepth], [isEmpty]) contain no
    assignment to [this.root] or to a field of a node, which is why their
    models take the tree and give back only a value: once the call has
    returned its value or raised, the tree is the one before the call. *)
Definition after {A} (r : result A) (st : RedBlackTree)
  : result RedBlackTree :=
  match r with
  | OutOfFuel => OutOfFuel
  | _ => Ok st
  end.

(** The tree after one call. *)
Definition exec (fuel : nat) (o : op) (st : RedBlackTree)
  : result RedBlackTree :=
  match o with
  | OpInsert k => insert fuel st k
  | OpSearch k => after (search fuel st k) st
  | OpPreorder => after (preorderTraversal fuel st) st
  | OpInorder => after (inorderTraversal fuel st) st
  | OpPostorder => after (postorderTraversal fuel st) st
  | OpLevelOrder => after (levelOrderTraversal fuel st) st
  | OpGetMinimum => after (getMinimum fuel st) st
  | OpGetMaximum => after (getMaximum fuel st) st
  | OpGetDepth => after (getDepth fuel st) st
  | OpIsEmpty => after (Ok (isEmpty st)) st
  | OpClear => Ok (clear st)
  end.

(** The tree after a sequence of calls. *)
Fixpoint run (fuel : nat) (os : list op) (st : RedBlackTree)
  : result RedBlackTree :=
  match os with
  | [] => Ok st
  | o :: os => st ←r exec fuel o st; run fuel os st
  end.

(** The invariant of the class: the arena represents a red-black search
    tree with a black root that holds the keys [ks]. *)
Definition well_formed (st : RedBlackTree) (ks : list Z) : Prop :=
  ∃ t n, Rep st t ∧ tree_color t = BLACK ∧ rb t n
         ∧ StronglySorted Z.le (inorder t) ∧ inorder t ≡ₚ ks.

(** *** Case 2 of the fix-up followed by Case 3, with the rotation of
    Case 2 left open; [fix_case3] is the Case 3 block of the side. *)
Definition case2_with
  (rotate : RedBlackTree → ref → result RedBlackTree)
  (fix_case3 : RedBlackTree → ref → result RedBlackTree)
  (st : RedBlackTree) (k : ref)
  : result (RedBlackTree * ref) :=
  kp ←r rd parent st k;
  st ←r rotate st kp;
  st ←r fix_case3 st kp;
  Ok (st, kp).

(** The tree [3 (black) -> left 1 (red) -> right 2 (red, new)] at the
    moment [insert(2)] calls [fixInsert]: slot 1 holds key 3, slot 2 key
    1 and slot 3 the new node with key 2. *)
Definition inner_left_state : RedBlackTree :=
  mkTree [ createNilNode;
           mkNode (Some 3%Z) BLACK (Some 2) (Some NIL) None;
           mkNode (Some 1%Z) RED (Some NIL) (Some 3) (Some 1);
           mkNode (Some 2%Z) RED (Some NIL) (Some NIL) (Some 2) ] 1.

(** The mirrored tree [1 (black) -> right 3 (red) -> left 2 (red, new)]. *)
Definition inner_right_state : RedBlackTree :=
  mkTree [ createNilNode;
           mkNode (Some 1%Z) BLACK (Some NIL) (Some 2) None;
           mkNode (Some 3%Z) RED (Some 3) (Some NIL) (Some 1);
           mkNode (Some 2%Z) RED (Some NIL) (Some NIL) (Some 2) ] 1.

(** *** Statements about rotations *)

(** No object has changed its key or its color between [st] and [st']. *)
Definition same_keys_colors (st st' : RedBlackTree) : Prop :=
  ∀ a, key <$> heap st' !! a = key <$> heap st !! a
       ∧ color <$> heap st' !! a = color <$> heap st !! a.

(** The child of [x] selected by [f] is a node, not the sentinel. *)
Definition child_is_node (f : RBNode → ref) (st : RedBlackTree)
  (x : nat) : Prop :=
  ∃ n y, heap st !! x = Some n ∧ f n = Some y ∧ y ≠ NIL.

(** A computation that, when it returns a tree, has changed no key and no
    color of [st]. *)
Definition preserves (m : result RedBlackTree) (st : RedBlackTree) : Prop :=
  ∀ st', m = Ok st' → same_keys_colors st st'.

(** C2 as the specification words it: a right rotation when the parent is
    the grandparent's left child and the current node is the parent's
    right child, a left rotation in the mirrored shape. *)
Definition case2_as_stated : Prop :=
  ∀ st z cp s pa pk cg ga gk u ck lk ka kk rk,
    tree_color u = BLACK →
    (Rep_z st (FR cp s pa pk :: FL cg ga gk u :: z) (T ck lk ka kk rk) →
     fixInsert_body st (Some ka)
     = case2_with rightRotate fix_case3_left st (Some ka))
    ∧ (Rep_z st (FL cp pa pk s :: FR cg u ga gk :: z) (T ck lk ka kk rk) →
       fixInsert_body st (Some ka)
       = case2_with leftRotate fix_case3_right st (Some ka)).

(** A black root with key 20 in slot 1, its red left child with key 10
    in slot 2 and its red right child with key 30 in slot 3, as three
    [insert] calls leave it. *)
Definition three_node_state : RedBlackTree :=
  mkTree [ createNilNode;
           mkNode (Some 20%Z) BLACK (Some 2) (Some 3) None;
           mkNode (Some 10%Z) RED (Some NIL) (Some NIL) (Some 1);
           mkNode (Some 30%Z) RED (Some NIL) (Some NIL) (Some 1) ] 1.

(** ** Further definitions *)

(** *** The keys a run leaves in the tree *)

(** The keys held after the calls [os] on a tree that held [ks], most
    recent first: [insert] adds its key, [clear] drops every key, and a
    query changes nothing. *)
Fixpoint keys_after (ks : list Z) (os : list op) : list Z :=
  match os with
  | [] => ks
  | OpInsert k :: os => keys_after (k :: ks) os
  | OpClear :: os => keys_after [] os
  | _ :: os => keys_after ks os
  end.

(** *** Keys of the objects of an arena *)

(** The two arenas have the same objects, each with the key it had. *)
Definition same_keys (st st' : RedBlackTree) : Prop :=
  ∀ a, key <$> heap st' !! a = key <$> heap st !! a.

(** A computation that, when it returns, has changed no key of [st] and
    has added no object; [tree_of] selects the tree from the result. *)
Definition keeps {A} (tree_of : A → RedBlackTree) (m : result A)
  (st : RedBlackTree) : Prop :=
  ∀ v, m = Ok v → same_keys st (tree_of v).

(** [numTree.search(k) !== null], the membership test of [demo.ts],
    lines 45-46. *)
Definition search_not_null (fuel : nat) (st : RedBlackTree) (k : Z)
  : result bool :=
  r ←r search fuel st k; Ok (bool_decide (r ≠ None)).

(** The child of [x] selected by [f] is the sentinel. *)
Definition child_is_nil (f : RBNode → ref) (st : RedBlackTree)
  (x : nat) : Prop :=
  ∃ n, heap st !! x = Some n ∧ f n = Some NIL.

(** *** Levels of a tree *)

(** Two lists of levels side by side: level [i] of the result is level
    [i] of [xs] followed by level [i] of [ys]. *)
Fixpoint zip_levels (xs ys : list (list Z)) : list (list Z) :=
  match xs, ys with
  | [], _ => ys
  | _, [] => xs
  | x :: xs, y :: ys => (x ++ y) :: zip_levels xs ys
  end.

(** The keys of a tree level by level, each level from left to right. *)
Fixpoint levels (t : tree) : list (list Z) :=
  match t with
  | E => []
  | T _ l _ k r => [k] :: zip_levels (levels l) (levels r)
  end.

(** The levels of the trees of a queue, side by side. *)
Definition queue_levels (q : list (ctx * tree)) : list (list Z) :=
  foldr (λ zt acc, zip_levels (levels zt.2) acc) [] q.

(** The keys at the roots of the trees of a queue. *)
Definition queue_roots (q : list (ctx * tree)) : list Z :=
  q ≫= λ zt, match zt.2 with E => [] | T _ _ _ k _ => [k] end.

(** The children that [levelOrderTraversal] pushes for the trees of a
    queue. *)
Definition queue_children (q : list (ctx * tree)) : list (ctx * tree) :=
  q ≫= λ zt,
    match zt.2 with
    | E => []
    | T c l a k r =>
      subtree (FL c a k r :: zt.1) l ++ subtree (FR c l a k :: zt.1) r
    end.

(** The tree that [insert] of 20, 10, 30 and 5 builds: a black root with
    key 20 in slot 1, black children with keys 10 and 30 in slots 2 and
    3, and the red node with key 5 in slot 4 as left child of slot 2. *)
Definition four_node_state : RedBlackTree :=
  mkTree [ createNilNode;
           mkNode (Some 20%Z) BLACK (Some 2) (Some 3) None;
           mkNode (Some 10%Z) BLACK (Some 4) (Some NIL) (Some 1);
           mkNode (Some 30%Z) BLACK (Some NIL) (Some NIL) (Some 1);
           mkNode (Some 5%Z) RED (Some NIL) (Some NIL) (Some 2) ] 1.

(** [three_node_state] at the moment [insert(5)] calls [fixInsert]: the
    new red node with key 5 in slot 4 hangs to the left of the red node
    with key 10, and the uncle, key 30, is red. *)
Definition red_uncle_left_state : RedBlackTree :=
  mkTree [ createNilNode;
           mkNode (Some 20%Z) BLACK (Some 2) (Some 3) None;
           mkNode (Some 10%Z) RED (Some 4) (Some NIL) (Some 1);
           mkNode (Some 30%Z) RED (Some NIL) (Some NIL) (Some 1);
           mkNode (Some 5%Z) RED (Some NIL) (Some NIL) (Some 2) ] 1.

(** The mirrored moment of [insert(35)]: the new node hangs to the right
    of the red node with key 30. *)
Definition red_uncle_right_state : RedBlackTree :=
  mkTree [ createNilNode;
           mkNode (Some 20%Z) BLACK (Some 2) (Some 3) None;
           mkNode (Some 10%Z) RED (Some NIL) (Some NIL) (Some 1);
           mkNode (Some 30%Z) RED (Some NIL) (Some 4) (Some 1);
           mkNode (Some 35%Z) RED (Some NIL) (Some NIL) (Some 3) ] 1.

(** The tree [3 (black) -> left 2 (red) -> left 1 (red, new)] at the
    moment [insert(1)] calls [fixInsert]. *)
Definition outer_left_state : RedBlackTree :=
  mkTree [ createNilNode;
           mkNode (Some 3%Z) BLACK (Some 2) (Some NIL) None;
           mkNode (Some 2%Z) RED (Some 3) (Some NIL) (Some 1);
           mkNode (Some 1%Z) RED (Some NIL) (Some NIL) (Some 2) ] 1.

(** The mirrored tree [1 (black) -> right 2 (red) -> right 3 (red, new)]. *)
Definition outer_right_state : RedBlackTree :=
  mkTree [ createNilNode;
           mkNode (Some 1%Z) BLACK (Some NIL) (Some 2) None;
           mkNode (Some 2%Z) RED (Some NIL) (Some 3) (Some 1);
           mkNode (Some 3%Z) RED (Some NIL) (Some NIL) (Some 2) ] 1.

(** * The methods compute on trees *)

(** ** Reading and writing a known object *)

Lemma rd_lookup {B} (f : RBNode → B) st a n :
  heap st !! a = Some n → rd f st (Some a) = Ok (f n).
Proof. intros H. unfold rd, deref. by rewrite H. Qed.

Lemma wr_lookup upd st a n :
  heap st !! a = Some n →
  wr upd st (Some a) = Ok (mkTree (<[a := upd n]> (heap st)) (root st)).
Proof. intros H. unfold wr. by rewrite H. Qed.

(** ** Object lists *)

Lemma holds_perm h cs cs' : cs ≡ₚ cs' → holds h cs → holds h cs'.
Proof. intros Hp [Hf Hn]. split; by rewrite <- Hp. Qed.

Lemma holds_lookup h cs a n : holds h cs → (a, n) ∈ cs → h !! a = Some n.
Proof.
  intros [Hf _] Hin. rewrite Forall_forall in Hf. exact (Hf _ Hin).
Qed.

Lemma holds_nodup h cs : holds h cs → NoDup cs.*1.
Proof. by intros [_ ?]. Qed.

Lemma holds_app_l h cs1 cs2 : holds h (cs1 ++ cs2) → holds h cs1.
Proof.
  intros [Hf Hn]. split.
  - by apply Forall_app in Hf as [? ?].
  - rewrite fmap_app in Hn. by apply NoDup_app in Hn as (? & ? & ?).
Qed.

Lemma holds_app_r h cs1 cs2 : holds h (cs1 ++ cs2) → holds h cs2.
Proof.
  intros H. apply holds_app_l with cs1. revert H. apply holds_perm.
  apply Permutation_app_comm.
Qed.

Lemma holds_cons_inv h c cs : holds h (c :: cs) → holds h cs.
Proof. apply (holds_app_r h [c] cs). Qed.

Lemma holds_write h a n n' cs :
  holds h ((a, n) :: cs) → holds (<[a := n']> h) ((a, n') :: cs).
Proof.
  intros [Hf Hn]. split; [|exact Hn].
  apply Forall_cons in Hf as [Ha Hf]. simpl in *.
  apply Forall_cons. split.
  - simpl. apply list_lookup_insert_eq. by eapply lookup_lt_Some.
  - rewrite Forall_forall in Hf |- *. intros [b m] Hin. simpl.
    rewrite list_lookup_insert_ne; [by apply (Hf (b, m))|].
    intros ->. apply NoDup_cons in Hn as [Hn _]. apply Hn.
    apply list_elem_of_fmap. by exists (b, m).
Qed.

Lemma holds_alloc h cs n :
  holds h cs → holds (h ++ [n]) ((length h, n) :: cs).
Proof.
  intros [Hf Hn].
  assert (Hlt : ∀ c, c ∈ cs → c.1 < length h).
  { rewrite Forall_forall in Hf. intros c Hc.
    eapply lookup_lt_Some. by apply Hf. }
  split.
  - apply Forall_cons. split.
    + simpl. rewrite lookup_app_r by lia. by rewrite Nat.sub_diag.
    + rewrite Forall_forall in Hf |- *. intros c Hc.
      rewrite lookup_app_l; [by apply Hf | by apply Hlt].
  - rewrite fmap_cons. simpl. apply NoDup_cons. split; [|done].
    intros (c & Hc1 & Hc2)%list_elem_of_fmap. apply Hlt in Hc2.
    simpl in *. lia.
Qed.

(** ** Moving the focus of a zipper *)

Lemma zcells_up f z t : zcells (f :: z) t ≡ₚ zcells z (plug1 f t).
Proof. destruct f; unfold zcells; simpl; solve_Permutation. Qed.

Lemma ctx_root_up f z t :
  ctx_root (f :: z) (root_of t) = ctx_root z (root_of (plug1 f t)).
Proof. by destruct f. Qed.

Lemma rep_up st f z t : Rep_z st (f :: z) t ↔ Rep_z st z (plug1 f t).
Proof.
  split; intros [Hc Hr]; split.
  - revert Hc. apply holds_perm. by rewrite zcells_up.
  - by rewrite <- ctx_root_up.
  - revert Hc. apply holds_perm. by rewrite zcells_up.
  - by rewrite ctx_root_up.
Qed.

Lemma rep_plug st z t : Rep_z st z t ↔ Rep st (plug z t).
Proof.
  revert t. induction z as [|f z IH]; intros t; [done|].
  rewrite rep_up. apply IH.
Qed.

Lemma rep_nil st z t : Rep_z st z t → heap st !! NIL = Some createNilNode.
Proof. intros [Hc _]. eapply holds_lookup; [done | left]. Qed.

(** ** The node in focus *)

Lemma rep_focus st z c l a k r :
  Rep_z st z (T c l a k r) →
  heap st !! a = Some (node_of (ctx_top z) c (root_of l) k (root_of r)).
Proof.
  intros [Hc _]. eapply holds_lookup; [done|].
  unfold zcells. simpl. right. apply elem_of_app. right. by left.
Qed.

Lemma rep_focus_ne_nil st z c l a k r : Rep_z st z (T c l a k r) → a ≠ NIL.
Proof.
  intros [Hc _] ->. apply holds_nodup in Hc. simpl in Hc.
  apply NoDup_cons in Hc as [Hc _]. apply Hc. unfold zcells. simpl.
  rewrite fmap_app. apply elem_of_app. right. simpl. left.
Qed.

Lemma root_of_cells p t : root_of t = NIL ∨ root_of t ∈ (cells p t).*1.
Proof. destruct t; [by left | right; simpl; left]. Qed.

(** ** Symbolic execution of field reads and writes *)

(** The tactics below run a method on an arena described by a [holds]
    hypothesis: [heap_rd] resolves the next field read, [heap_wr] the
    next field write (and updates the hypothesis), [heap_yes] and
    [heap_no] decide a reference comparison from the distinctness of the
    listed slots. *)

Ltac cell_at a l :=
  lazymatch l with
  | (a, ?n) :: _ => n
  | _ :: ?l' => cell_at a l'
  end.

Ltac cells_without a l :=
  lazymatch l with
  | (a, _) :: ?l' => l'
  | ?c :: ?l' => let r := cells_without a l' in constr:(c :: r)
  end.

Ltac solve_elem :=
  repeat first [apply list_elem_of_here | apply list_elem_of_further].

Ltac solve_in :=
  first [ apply list_elem_of_here
        | apply list_elem_of_further; solve_in
        | apply elem_of_app; first [left; solve_in | right; solve_in] ].

Ltac nodup_absurd Hn :=
  lazymatch type of Hn with
  | NoDup (_ :: _) =>
    let Hx := fresh in
    apply NoDup_cons in Hn as [Hx Hn];
    first [ by (exfalso; apply Hx; solve_in) | clear Hx; nodup_absurd Hn ]
  end.

(** Disequalities between slots that a [holds] hypothesis lists: an
    equation between two of them contradicts [NoDup]. *)
Ltac solve_ne :=
  let Heq := fresh in
  intros Heq;
  repeat match type of Heq with
         | context [root_of ?t] => is_var t; destruct t
         end;
  simpl in Heq; simplify_eq;
  lazymatch goal with
  | H : holds _ _ |- _ =>
    let Hn := fresh in
    pose proof (holds_nodup _ _ H) as Hn;
    repeat (progress (rewrite ?fmap_app in Hn; simpl in Hn));
    nodup_absurd Hn
  end.

Ltac heap_unfold :=
  unfold set_color, set_left, set_right, set_parent, set_root, node_of,
    createNilNode in *;
  cbn [rbind heap root key color left right parent ctx_top frame_addr] in *.

Ltac heap_rd :=
  lazymatch goal with
  | H : holds ?h ?cs |- context [rbind (rd ?f (mkTree ?h ?r) (Some ?a)) _] =>
    let n := cell_at a cs in
    rewrite (rd_lookup f (mkTree h r) a n)
      by (eapply holds_lookup; [exact H | solve_elem]);
    heap_unfold
  end.

Ltac heap_wr_with H h cs u r a :=
    let n := cell_at a cs in
    let rest := cells_without a cs in
    rewrite (wr_lookup u (mkTree h r) a n)
      by (eapply holds_lookup; [exact H | solve_elem]);
    cbn [heap root];
    lazymatch goal with
    | |- context [<[a := ?v]> h] =>
      let H' := fresh "H" in
      assert (H' : holds (<[a := v]> h) ((a, v) :: rest))
        by (apply (holds_write h a n); revert H; apply holds_perm;
            solve_Permutation);
      clear H;
      let h' := fresh "h" in
      generalize dependent (<[a := v]> h); intros h' H'
    end;
    heap_unfold.

Ltac heap_wr :=
  lazymatch goal with
  | H : holds ?h ?cs |- context [rbind (wr ?u (mkTree ?h ?r) (Some ?a)) _] =>
    heap_wr_with H h cs u r a
  | H : holds ?h ?cs |- context [wr ?u (mkTree ?h ?r) (Some ?a) = _] =>
    heap_wr_with H h cs u r a
  end.

Ltac heap_yes :=
  rewrite decide_True by (first [done | solve_ne]); heap_unfold.
Ltac heap_no :=
  rewrite decide_False by (first [done | solve_ne | by intros ?]);
  heap_unfold.

Ltac expl l tail :=
  lazymatch l with
  | [] => tail
  | ?c :: ?l' => let r := expl l' tail in constr:(c :: r)
  | ?l1 ++ ?l2 => let r2 := expl l2 tail in expl l1 r2
  | _ => tail
  end.

Ltac opaq l tail :=
  lazymatch l with
  | [] => tail
  | _ :: ?l' => opaq l' tail
  | ?l1 ++ ?l2 => let r2 := opaq l2 tail in opaq l1 r2
  | ?o => constr:(o ++ tail)
  end.

(** Bring the explicitly listed objects of a [holds] hypothesis to the
    front. *)
Ltac holds_norm H :=
  lazymatch type of H with
  | holds ?h ?cs =>
    let o := opaq cs (@nil cell) in
    let cs' := expl cs o in
    apply (holds_perm h cs cs') in H; [|solve_Permutation]
  end.

Ltac holds_done :=
  unfold zcells; simpl; heap_unfold;
  lazymatch goal with
  | H : holds ?h _ |- holds ?h _ =>
    revert H; apply holds_perm; solve_Permutation
  end.

Ltac rep_open R :=
  let Hc := fresh "Hc" in
  let Hr := fresh "Hr" in
  destruct R as [Hc Hr];
  lazymatch type of Hc with
  | holds (heap ?st) _ =>
    let h := fresh "h" in let rt := fresh "rt" in
    destruct st as [h rt]
  end;
  unfold zcells in Hc; simpl in Hc, Hr; holds_norm Hc; heap_unfold.

Ltac rep_close :=
  eexists; split; [reflexivity|]; split; [holds_done | simpl; try done].

Ltac heap_steps := repeat first [heap_rd | heap_wr].

(** ** Rotations *)

Lemma rep_leftRotate st z cx a xa kx cy b ya ky c :
  Rep_z st z (T cx a xa kx (T cy b ya ky c)) →
  ∃ st', leftRotate st (Some xa) = Ok st'
         ∧ Rep_z st' z (T cy (T cx a xa kx b) ya ky c).
Proof.
  intros R. unfold leftRotate.
  destruct z as [|[cp pa pk s|cp s pa pk] z]; destruct b as [|cb bl ba bk br];
    rep_open R; heap_rd; heap_rd; heap_wr; heap_rd.
  - heap_no. heap_steps. rep_close.
  - heap_yes. heap_steps. rep_close.
  - heap_no. heap_steps. heap_yes. heap_steps. rep_close.
  - heap_yes. heap_steps. heap_yes. heap_steps. rep_close.
  - heap_no. heap_steps. heap_no. heap_steps. rep_close.
  - heap_yes. heap_steps. heap_no. heap_steps. rep_close.
Qed.

Lemma rep_rightRotate st z cx c xa kx cy a ya ky b :
  Rep_z st z (T cx (T cy a ya ky b) xa kx c) →
  ∃ st', rightRotate st (Some xa) = Ok st'
         ∧ Rep_z st' z (T cy a ya ky (T cx b xa kx c)).
Proof.
  intros R. unfold rightRotate.
  destruct z as [|[cp pa pk s|cp s pa pk] z]; destruct b as [|cb bl ba bk br];
    rep_open R; heap_rd; heap_rd; heap_wr; heap_rd.
  - heap_no. heap_steps. rep_close.
  - heap_yes. heap_steps. rep_close.
  - heap_no. heap_steps. heap_no. heap_steps. rep_close.
  - heap_yes. heap_steps. heap_no. heap_steps. rep_close.
  - heap_no. heap_steps. heap_yes. heap_steps. rep_close.
  - heap_yes. heap_steps. heap_yes. heap_steps. rep_close.
Qed.

(** ** Painting the node in focus *)

Lemma rep_paint c' st z c l a k r :
  Rep_z st z (T c l a k r) →
  ∃ st', wr (set_color c') st (Some a) = Ok st' ∧ Rep_z st' z (T c' l a k r).
Proof. intros R. rep_open R. heap_wr. rep_close. Qed.

Lemma rep_paint_root st t :
  Rep st t → t ≠ E →
  ∃ st', wr (set_color BLACK) st (Some (root st)) = Ok st'
         ∧ Rep st' (paint BLACK t).
Proof.
  intros R Hne. destruct t as [|c l a k r]; [done|].
  replace (root st) with a by (by destruct R).
  exact (rep_paint BLACK st [] c l a k r R).
Qed.

(** ** The descent loop of [insert] *)

Lemma descend_dir_ok k t z :
  Forall (dir_ok k) z → Forall (dir_ok k) (descend k z t).
Proof.
  revert z. induction t as [|c l IHl a x r IHr]; intros z Hz; simpl; [done|].
  destruct (k <? x)%Z eqn:Hk.
  - apply IHl. by constructor.
  - apply IHr. by constructor.
Qed.

Lemma descend_length k t z : length (descend k z t) ≤ length z + depth t.
Proof.
  revert z. induction t as [|c l IHl a x r IHr]; intros z; simpl; [lia|].
  destruct (k <? x)%Z.
  - specialize (IHl (FL c a x r :: z)). simpl in IHl. lia.
  - specialize (IHr (FR c l a x :: z)). simpl in IHr. lia.
Qed.

Lemma rep_descend fuel k t : ∀ st z,
  Rep_z st z t → depth t < fuel →
  insert_descend fuel st (Some k) (ctx_top z) (Some (root_of t))
    = Ok (ctx_top (descend k z t))
  ∧ Rep_z st (descend k z t) E.
Proof.
  revert fuel. induction t as [|c l IHl a x r IHr]; intros fuel st z R Hf.
  - destruct fuel; [lia|]. simpl. done.
  - destruct fuel as [|fuel]; [lia|]. simpl in Hf.
    pose proof (rep_focus _ _ _ _ _ _ _ R) as Ha.
    pose proof (rep_focus_ne_nil _ _ _ _ _ _ _ R) as Hne.
    cbn [insert_descend root_of]. rewrite decide_True by congruence.
    rewrite (rd_lookup _ _ _ _ Ha). cbn [rbind key node_of].
    unfold key_lt. cbn [to_number]. simpl descend.
    destruct (k <? x)%Z.
    + rewrite (rd_lookup _ _ _ _ Ha). cbn [rbind left node_of].
      apply (IHl fuel st (FL c a x r :: z)); [by apply rep_up | lia].
    + rewrite (rd_lookup _ _ _ _ Ha). cbn [rbind right node_of].
      apply (IHr fuel st (FR c l a x :: z)); [by apply rep_up | lia].
Qed.

(** ** One pass through the body of the fix-up loop *)

Ltac heap_bool :=
  first [rewrite bool_decide_true by done | rewrite bool_decide_false by done];
  cbn [rbind].

Ltac heap_call lem Z T :=
  lazymatch goal with
  | H : holds ?h _ |- context [mkTree ?h ?rt] =>
    let R := fresh "R" in
    assert (R : Rep_z (mkTree h rt) Z T)
      by (split; [holds_done | simpl; congruence]);
    let st := fresh "st" in
    let E := fresh "E" in
    let R' := fresh "R" in
    destruct (lem _ _ _ _ _ _ _ _ _ _ _ R) as (st & E & R');
    rewrite E; clear E R H; rep_open R'
  end.

Ltac heap_finish := heap_steps; rep_close.

(** The loop body at a node with a parent and a grandparent returns, and
    moves the zipper by [fix_step]. *)
Lemma rep_fix_body st f1 f2 z ck lk ka kk rk :
  Rep_z st (f1 :: f2 :: z) (T ck lk ka kk rk) →
  ∃ st', fixInsert_body st (Some ka)
           = Ok (st', Some (root_of (fix_step f1 f2 z (T ck lk ka kk rk)).2))
         ∧ Rep_z st' (fix_step f1 f2 z (T ck lk ka kk rk)).1
                     (fix_step f1 f2 z (T ck lk ka kk rk)).2.
Proof.
  intros R. unfold fixInsert_body.
  destruct f2 as [cg ga gk u|cg u ga gk].
  - destruct u as [|[] ul ua uk ur]; destruct f1 as [cp pa pk s|cp s pa pk];
      cbn [fix_step fst snd]; rep_open R;
      heap_rd; heap_rd; heap_rd; heap_no; unfold is_red; heap_rd;
      heap_bool.
    + heap_rd. heap_no. cbn [rbind].
      unfold fix_case3_left. heap_steps.
      heap_call rep_rightRotate z
        (T RED (T BLACK (T ck lk ka kk rk) pa pk s) ga gk E).
      rep_close.
    + heap_rd. heap_yes. cbn [rbind].
      heap_call rep_leftRotate (FL cg ga gk E :: z)
        (T cp s pa pk (T ck lk ka kk rk)).
      unfold fix_case3_left. heap_steps.
      heap_call rep_rightRotate z
        (T RED (T BLACK (T cp s pa pk lk) ka kk rk) ga gk E).
      rep_close.
    + unfold fix_case1. heap_finish.
    + unfold fix_case1. heap_finish.
    + heap_rd. heap_no. cbn [rbind].
      unfold fix_case3_left. heap_steps.
      heap_call rep_rightRotate z
        (T RED (T BLACK (T ck lk ka kk rk) pa pk s) ga gk
           (T BLACK ul ua uk ur)).
      rep_close.
    + heap_rd. heap_yes. cbn [rbind].
      heap_call rep_leftRotate (FL cg ga gk (T BLACK ul ua uk ur) :: z)
        (T cp s pa pk (T ck lk ka kk rk)).
      unfold fix_case3_left. heap_steps.
      heap_call rep_rightRotate z
        (T RED (T BLACK (T cp s pa pk lk) ka kk rk) ga gk
           (T BLACK ul ua uk ur)).
      rep_close.
  - destruct u as [|[] ul ua uk ur]; destruct f1 as [cp pa pk s|cp s pa pk];
      cbn [fix_step fst snd]; rep_open R;
      heap_rd; heap_rd; heap_rd; heap_yes; heap_rd; unfold is_red; heap_rd;
      heap_bool.
    + heap_rd. heap_yes. cbn [rbind].
      heap_call rep_rightRotate (FR cg E ga gk :: z)
        (T cp (T ck lk ka kk rk) pa pk s).
      unfold fix_case3_right. heap_steps.
      heap_call rep_leftRotate z
        (T RED E ga gk (T BLACK lk ka kk (T cp rk pa pk s))).
      rep_close.
    + heap_rd. heap_no. cbn [rbind].
      unfold fix_case3_right. heap_steps.
      heap_call rep_leftRotate z
        (T RED E ga gk (T BLACK s pa pk (T ck lk ka kk rk))).
      rep_close.
    + unfold fix_case1. heap_finish.
    + unfold fix_case1. heap_finish.
    + heap_rd. heap_yes. cbn [rbind].
      heap_call rep_rightRotate (FR cg (T BLACK ul ua uk ur) ga gk :: z)
        (T cp (T ck lk ka kk rk) pa pk s).
      unfold fix_case3_right. heap_steps.
      heap_call rep_leftRotate z
        (T RED (T BLACK ul ua uk ur) ga gk (T BLACK lk ka kk (T cp rk pa pk s))).
      rep_close.
    + heap_rd. heap_no. cbn [rbind].
      unfold fix_case3_right. heap_steps.
      heap_call rep_leftRotate z
        (T RED (T BLACK ul ua uk ur) ga gk (T BLACK s pa pk (T ck lk ka kk rk))).
      rep_close.
Qed.

(** ** The fix-up loop *)

Lemma rep_fix_cond st z c l a k r :
  Rep_z st z (T c l a k r) →
  fixInsert_cond st (Some a)
  = Ok (match z with
        | f :: _ => bool_decide (frame_color f = RED)
        | [] => false
        end).
Proof.
  intros R. unfold fixInsert_cond.
  destruct z as [|[cp pa pk s|cp s pa pk] z]; rep_open R; heap_rd;
    try heap_rd; done.
Qed.

Lemma ctx_root_in z c c' :
  z ≠ [] → ctx_root z c ∈ (ctx_cells z c').*1.
Proof.
  revert c c'. induction z as [|f z IH]; intros c c' Hz; [done|].
  destruct z as [|f' z'].
  - destruct f; simpl; left.
  - specialize (IH (frame_addr f) (frame_addr f) ltac:(done)).
    destruct f; simpl in *; right; rewrite fmap_app, elem_of_app; by right.
Qed.

Lemma rep_focus_not_root st z c l a k r :
  Rep_z st z (T c l a k r) → z ≠ [] → Some a ≠ Some (root st).
Proof.
  intros [Hc Hr] Hz [= Heq]. rewrite Hr in Heq. simpl in Heq.
  apply holds_nodup in Hc. simpl in Hc. apply NoDup_cons in Hc as [_ Hc].
  unfold zcells in Hc. rewrite fmap_app in Hc.
  apply NoDup_app in Hc as (_ & Hc & _).
  apply (Hc (ctx_root z a)); [by apply ctx_root_in|].
  rewrite <- Heq. simpl. left.
Qed.

Lemma fix_step_focus f1 f2 z2 c l a k r :
  ∃ c' l' a' k' r', (fix_step f1 f2 z2 (T c l a k r)).2 = T c' l' a' k' r'.
Proof.
  destruct f2 as [cg ga gk u|cg u ga gk]; destruct u as [|[] ul ua uk ur];
    destruct f1; simpl; eauto 10.
Qed.

Lemma fix_step_path f1 f2 z2 c l a k r :
  (fix_step f1 f2 z2 (T c l a k r)).1 = z2
  ∨ ∃ f, (fix_step f1 f2 z2 (T c l a k r)).1 = f :: z2
         ∧ frame_color f = BLACK.
Proof.
  destruct f2 as [cg ga gk u|cg u ga gk]; destruct u as [|[] ul ua uk ur];
    destruct f1; simpl; eauto 10.
Qed.

Lemma root_black_tail f z : z ≠ [] → root_black (f :: z) → root_black z.
Proof. unfold root_black. destruct z; [done|]. by rewrite last_cons_cons. Qed.

Lemma fix_loop_exit n z t :
  match z with f :: _ => frame_color f = BLACK | [] => True end →
  fix_loop n z t = plug z t.
Proof.
  intros Hz. destruct n; [done|]. destruct z as [|f1 [|f2 z2]]; try done.
  simpl. by rewrite Hz.
Qed.

(** The loop returns within [length z / 2 + 2] passes: a pass either
    takes two frames off the path or is the last one. *)
Lemma rep_fix_loop fuel : ∀ n st z c l a k r,
  Rep_z st z (T c l a k r) →
  root_black z →
  length z + 3 ≤ 2 * fuel →
  length z ≤ n →
  ∃ st', fixInsert_loop fuel st (Some a) = Ok st'
         ∧ Rep st' (fix_loop n z (T c l a k r)).
Proof.
  induction fuel as [|fuel IH]; intros n st z c l a k r R Hb Hf Hn; [lia|].
  cbn [fixInsert_loop]. rewrite (rep_fix_cond _ _ _ _ _ _ _ R).
  destruct z as [|f1 z1]; cbn [rbind].
  { exists st. split; [done|]. destruct n; exact R. }
  destruct (frame_color f1) eqn:Hc1; cycle 1.
  { rewrite bool_decide_false by done. exists st. split; [done|].
    rewrite fix_loop_exit by (simpl; congruence).
    exact (proj1 (rep_plug _ _ _) R). }
  rewrite bool_decide_true by done.
  destruct z1 as [|f2 z2].
  { unfold root_black in Hb. simpl in Hb. congruence. }
  destruct n as [|n]; [simpl in Hn; lia|].
  cbn [fix_loop]. rewrite Hc1.
  destruct (rep_fix_body _ _ _ _ _ _ _ _ _ R) as (st1 & E1 & R1).
  rewrite E1. cbn [rbind].
  destruct (fix_step_focus f1 f2 z2 c l a k r) as (c' & l' & a' & k' & r' & Et).
  destruct (fix_step f1 f2 z2 (T c l a k r)) as [z' t'] eqn:Es.
  simpl in Et, R1. subst t'. cbn [root_of snd].
  pose proof (fix_step_path f1 f2 z2 c l a k r) as Hp. rewrite Es in Hp.
  simpl in Hp.
  destruct z' as [|f' z''].
  { rewrite decide_True; [|by destruct R1 as [_ ->]].
    exists st1. split; [done|]. destruct n; exact R1. }
  rewrite decide_False by (by eapply rep_focus_not_root).
  destruct Hp as [Hp|(f & Hp & Hcf)].
  - apply (IH n st1 _ _ _ _ _ _ R1).
    + subst z2. apply (root_black_tail f2); [done|].
      by apply (root_black_tail f1).
    + subst z2. simpl in *. lia.
    + subst z2. simpl in *. lia.
  - simplify_eq. destruct fuel as [|fuel]; [simpl in Hf; lia|].
    cbn [fixInsert_loop]. rewrite (rep_fix_cond _ _ _ _ _ _ _ R1).
    rewrite bool_decide_false by (rewrite Hcf; done). cbn [rbind].
    exists st1. split; [done|]. rewrite fix_loop_exit by (simpl; congruence).
    exact (proj1 (rep_plug _ _ _) R1).
Qed.

(** ** [insert] *)

Lemma plug_descend k t z : plug (descend k z t) E = plug z t.
Proof.
  revert z. induction t as [|c l IHl a x r IHr]; intros z; simpl; [done|].
  destruct (k <? x)%Z; [by rewrite IHl | by rewrite IHr].
Qed.

Lemma zcells_plug z t : zcells z t ≡ₚ zcells [] (plug z t).
Proof.
  revert t. induction z as [|f z IH]; intros t; [done|].
  rewrite zcells_up. apply IH.
Qed.

Lemma descend_root_black k t z :
  root_black z → (z = [] → tree_color t = BLACK) →
  root_black (descend k z t).
Proof.
  revert z. induction t as [|c l IHl a x r IHr]; intros z Hz Ht; simpl;
    [done|].
  assert (∀ f, frame_color f = c → root_black (f :: z)) as Hf.
  { intros f Hc. unfold root_black in *. destruct z as [|f' z'].
    - simpl in *. rewrite Hc. by apply Ht.
    - by rewrite last_cons_cons. }
  destruct (k <? x)%Z; [apply IHl | apply IHr]; try done; by apply Hf.
Qed.

Lemma fix_loop_nonempty n : ∀ z c l a k r, fix_loop n z (T c l a k r) ≠ E.
Proof.
  assert (∀ z c l a k r, plug z (T c l a k r) ≠ E) as Hplug.
  { induction z as [|[] z IH]; intros; simpl; [done|apply IH..]. }
  induction n as [|n IH]; intros z c l a k r; simpl; [apply Hplug|].
  destruct z as [|f1 [|f2 z2]]; try apply Hplug.
  destruct (frame_color f1); [|apply Hplug].
  destruct (fix_step_focus f1 f2 z2 c l a k r) as (c' & l' & a' & k' & r' & Et).
  destruct (fix_step f1 f2 z2 (T c l a k r)) as [z' t']. simpl in Et.
  subst. apply IH.
Qed.

(** [insert] on an arena that represents a tree with a black root
    returns, given more passes than the tree is deep, and the new arena
    represents [ins] of the tree; the new node takes the next free
    slot. *)
Lemma rep_insert fuel st t k :
  Rep st t → tree_color t = BLACK → depth t < fuel →
  ∃ st', insert fuel st k = Ok st' ∧ Rep st' (ins (length (heap st)) k t).
Proof.
  intros R Hb Hf. unfold insert, alloc. cbn [root heap].
  pose proof (holds_alloc _ _ (createNode k) (rep_cells _ _ _ R)) as H1.
  assert (R1 : Rep_z (mkTree (heap st ++ [createNode k]) (root st)) [] t).
  { split; [by apply holds_cons_inv in H1 | by destruct R]. }
  destruct (rep_descend fuel k t _ _ R1 Hf) as [Ed R2].
  simpl in Ed. replace (root_of t) with (root st) in Ed by (by destruct R).
  rewrite Ed. cbn [rbind]. clear Ed.
  pose proof (descend_dir_ok k t [] ltac:(done)) as Hd.
  pose proof (descend_root_black k t [] ltac:(done) ltac:(done)) as Hrb.
  pose proof (descend_length k t []) as Hl. simpl in Hl.
  assert (H2 : holds (heap st ++ [createNode k])
            ((length (heap st), createNode k) :: (NIL, createNilNode)
               :: zcells (descend k [] t) E)).
  { revert H1. apply holds_perm. do 2 f_equiv.
    rewrite (zcells_plug (descend k [] t)), plug_descend. done. }
  destruct R2 as [_ Hr]. simpl in Hr. clear R1 H1 R.
  unfold ins. 
  generalize dependent (descend k [] t). intros z.
  generalize (length (heap st)). intros new.
  generalize dependent (heap st ++ [createNode k]). intros h.
  generalize dependent (root st). intros rt. clear st.
  intros Hr Hd Hrb Hl H2.
  destruct z as [|f1 [|f2 z2]].
  - unfold zcells in H2. simpl in H2. unfold createNode in H2. holds_norm H2.
    heap_unfold. heap_wr. heap_rd. heap_wr. rep_close.
  - apply Forall_cons in Hd as [Hd _].
    unfold zcells in H2. unfold createNode in H2.
    destruct f1 as [cp pa pk s|cp s pa pk]; simpl in H2, Hd; holds_norm H2;
      heap_unfold; heap_wr; heap_rd; unfold key_lt; cbn [to_number];
      rewrite Hd; heap_wr; heap_rd; heap_rd; rep_close.
  - apply Forall_cons in Hd as [Hd _].
    unfold zcells in H2. unfold createNode in H2.
    destruct f1 as [cp pa pk s|cp s pa pk]; simpl in H2, Hd; holds_norm H2;
      heap_unfold; heap_wr; heap_rd; unfold key_lt; cbn [to_number];
      rewrite Hd; heap_wr; heap_rd; heap_rd; unfold fixInsert, fix_z;
      lazymatch goal with
      | H : holds ?h _ |- context [fix_loop _ ?z ?t] =>
        assert (R : Rep_z (mkTree h rt) z t) by (split; [holds_done | done]);
        destruct (rep_fix_loop fuel (length z) _ _ _ _ _ _ _ R Hrb
                    ltac:(simpl in *; lia) ltac:(done)) as (st1 & E1 & R1)
      end;
      rewrite E1; cbn [rbind];
      (apply rep_paint_root; [exact R1 | apply fix_loop_nonempty]).
Qed.

(** ** Red-black invariants of [ins] *)

Lemma rb_paint_black t n : rb t n → ∃ m, rb (paint BLACK t) m.
Proof.
  destruct t as [|[] l a k r]; simpl.
  - by exists 0.
  - intros (_ & _ & Hl & Hr). by exists (S n).
  - by exists n.
Qed.

Lemma rb_red_inv l a k r n :
  rb (T RED l a k r) n ↔
  tree_color l = BLACK ∧ tree_color r = BLACK ∧ rb l n ∧ rb r n.
Proof. done. Qed.

Lemma rbz_plug z : ∀ t n,
  rbz z n → rb t n →
  tree_color t = BLACK
  ∨ match z with f :: _ => frame_color f = BLACK | [] => True end →
  ∃ m, rb (plug z t) m.
Proof.
  induction z as [|f z IH]; intros t n Hz Ht Hc; simpl; [by exists n|].
  destruct Hz as [Hs Hz].
  destruct f as [[] a k s|[] s a k]; simpl in *.
  - destruct Hc as [Hc|Hc]; [|done]. destruct Hz as (Hsb & Htop & Hz).
    apply (IH _ n); [done | by simpl | right].
    destruct z; [done | exact Htop].
  - apply (IH _ (S n)); [done | by simpl | by left].
  - destruct Hc as [Hc|Hc]; [|done]. destruct Hz as (Hsb & Htop & Hz).
    apply (IH _ n); [done | by simpl | right].
    destruct z; [done | exact Htop].
  - apply (IH _ (S n)); [done | by simpl | by left].
Qed.

Lemma descend_rbz k t : ∀ z n,
  rbz z n → rb t n → (tree_color t = RED → top_black z) →
  rbz (descend k z t) 0.
Proof.
  induction t as [|c l IHl a x r IHr]; intros z n Hz Ht Hc; simpl.
  - simpl in Ht. by subst.
  - destruct c; simpl in Ht.
    + destruct Ht as (Hlb & Hrb & Hl & Hr). specialize (Hc eq_refl).
      destruct (k <? x)%Z.
      * apply (IHl _ n); [by simpl | done | congruence].
      * apply (IHr _ n); [by simpl | done | congruence].
    + destruct n as [|n]; [done|]. destruct Ht as [Hl Hr].
      destruct (k <? x)%Z.
      * apply (IHl _ n); [by simpl | done | done].
      * apply (IHr _ n); [by simpl | done | done].
Qed.

Lemma fix_loop_rb n : ∀ z l a k r m,
  length z ≤ n →
  rbz z m → rb (T RED l a k r) m →
  ∃ m', rb (paint BLACK (fix_loop n z (T RED l a k r))) m'.
Proof.
  induction n as [|n IH]; intros z l a k r m Hn Hz Ht.
  { destruct z; [|simpl in Hn; lia]. cbn [fix_loop plug].
    exact (rb_paint_black _ _ Ht). }
  assert (Hexit : match z with f :: _ => frame_color f = BLACK | [] => True end
                  → ∃ m', rb (paint BLACK (fix_loop (S n) z (T RED l a k r))) m').
  { intros Hb. rewrite fix_loop_exit by done.
    destruct (rbz_plug z _ m Hz Ht (or_intror Hb)) as [m' Hm'].
    exact (rb_paint_black _ _ Hm'). }
  destruct z as [|f1 z1]; [by apply Hexit|].
  destruct (frame_color f1) eqn:Hc1; [|by apply Hexit].
  cbn [rbz] in Hz. rewrite Hc1 in Hz. destruct Hz as (Hs & Hsb & Htop & Hz1).
  destruct z1 as [|f2 z2]; [done|]. simpl in Htop.
  cbn [rbz] in Hz1. rewrite Htop in Hz1. destruct Hz1 as (Hu & Hz2).
  cbn [fix_loop]. rewrite Hc1.
  apply rb_red_inv in Ht as (Hlb & Hrb & Hl & Hr).
  assert (Hfin : ∀ t', rb t' (S m) → tree_color t' = BLACK →
                       ∃ m', rb (paint BLACK (plug z2 t')) m').
  { intros t' Ht' Hb'.
    destruct (rbz_plug z2 _ _ Hz2 Ht' (or_introl Hb')) as [m' Hm'].
    exact (rb_paint_black _ _ Hm'). }
  destruct f2 as [cg ga gk u|cg u ga gk]; simpl in Hu, Htop; subst cg;
    destruct u as [|[] ul ua uk ur]; destruct f1 as [cp pa pk s|cp s pa pk];
    simpl in Hs, Hsb, Hc1; subst cp; cbn [fix_step frame_paint plug1];
    try (rewrite fix_loop_exit by done; cbn [plug plug1]; apply Hfin; [|done];
         simpl; simpl in Hu; done);
    apply rb_red_inv in Hu as (Hulb & Hurb & Hul & Hur);
    (apply (IH _ _ _ _ _ (S m)); [simpl in Hn; lia | done | by simpl]).
Qed.

Lemma tree_color_paint_black t : tree_color (paint BLACK t) = BLACK.
Proof. by destruct t. Qed.

Lemma ins_rb a k t n :
  rb t n → tree_color t = BLACK →
  ∃ m, rb (ins a k t) m ∧ tree_color (ins a k t) = BLACK.
Proof.
  intros Ht Hb.
  pose proof (descend_rbz k t [] n I Ht ltac:(congruence)) as Hz.
  pose proof (descend_root_black k t [] I ltac:(done)) as Hrb.
  unfold ins. destruct (descend k [] t) as [|f1 [|f2 z2]].
  - exists 1. by simpl.
  - assert (frame_color f1 = BLACK) as Hc by done.
    destruct (rbz_plug [f1] (T RED E a k E) 0 Hz) as [m Hm];
      [by simpl | by right |].
    exists m. split; [done|]. by destruct f1; simpl in *.
  - destruct (fix_loop_rb (length (f1 :: f2 :: z2)) (f1 :: f2 :: z2)
                E a k E 0 ltac:(done) Hz ltac:(by simpl)) as [m Hm].
    exists m. split; [done | apply tree_color_paint_black].
Qed.

(** ** Keys of [ins] *)

Lemma inorder_plug z : ∀ t, inorder (plug z t) = lefts z ++ inorder t ++ rights z.
Proof.
  induction z as [|[c a k r|c l a k] z IH]; intros t; simpl.
  - by rewrite app_nil_r.
  - rewrite IH. simpl. by rewrite <- !app_assoc.
  - rewrite IH. simpl. by rewrite <- !app_assoc.
Qed.

Lemma inorder_paint c t : inorder (paint c t) = inorder t.
Proof. by destruct t. Qed.

Lemma fix_step_inorder f1 f2 z2 c l a k r :
  inorder (plug (fix_step f1 f2 z2 (T c l a k r)).1
                (fix_step f1 f2 z2 (T c l a k r)).2)
  = inorder (plug (f1 :: f2 :: z2) (T c l a k r)).
Proof.
  destruct f2 as [cg ga gk u|cg u ga gk]; destruct u as [|[] ul ua uk ur];
    destruct f1 as [cp pa pk s|cp s pa pk]; cbn [fix_step fst snd plug plug1 frame_paint];
    rewrite !inorder_plug; do 2 f_equal; simpl;
    repeat (rewrite <- app_assoc; simpl); done.
Qed.

Lemma fix_loop_inorder n : ∀ z c l a k r,
  inorder (fix_loop n z (T c l a k r)) = inorder (plug z (T c l a k r)).
Proof.
  induction n as [|n IH]; intros z c l a k r; [done|].
  cbn [fix_loop]. destruct z as [|f1 [|f2 z2]]; try done.
  destruct (frame_color f1); [|done].
  rewrite <- fix_step_inorder.
  destruct (fix_step_focus f1 f2 z2 c l a k r) as (c' & l' & a' & k' & r' & Et).
  destruct (fix_step f1 f2 z2 (T c l a k r)) as [z' t']. simpl in *.
  subst. apply IH.
Qed.

Lemma ins_inorder a k t :
  inorder (ins a k t)
  = lefts (descend k [] t) ++ k :: rights (descend k [] t).
Proof.
  unfold ins, fix_z. destruct (descend k [] t) as [|f1 [|f2 z2]].
  - done.
  - by rewrite inorder_plug.
  - by rewrite inorder_paint, fix_loop_inorder, inorder_plug.
Qed.

Lemma descend_inorder k t : ∀ z,
  lefts (descend k z t) ++ rights (descend k z t)
  = lefts z ++ inorder t ++ rights z.
Proof.
  intros z. by rewrite <- (inorder_plug z t), <- (plug_descend k),
    inorder_plug.
Qed.

Lemma descend_bounds k t : ∀ z,
  StronglySorted Z.le (lefts z ++ inorder t ++ rights z) →
  Forall (λ x, (x ≤ k)%Z) (lefts z) → Forall (λ x, (k ≤ x)%Z) (rights z) →
  Forall (λ x, (x ≤ k)%Z) (lefts (descend k z t))
  ∧ Forall (λ x, (k ≤ x)%Z) (rights (descend k z t)).
Proof.
  induction t as [|c l IHl a x r IHr]; intros z Hs Hl Hr; simpl; [done|].
  simpl in Hs. rewrite <- app_assoc in Hs. simpl in Hs.
  pose proof Hs as Hs'. apply StronglySorted_app_1_r in Hs'.
  destruct (k <? x)%Z eqn:Hk.
  - apply Z.ltb_lt in Hk. apply IHl; simpl; [done..|].
    apply StronglySorted_app_1_r, StronglySorted_cons in Hs' as [Hx _].
    apply Forall_cons. split; [lia|].
    apply Forall_app. split; [|done].
    apply Forall_app in Hx as [Hx _]. eapply Forall_impl; [exact Hx|].
    simpl. intros. lia.
  - apply Z.ltb_ge in Hk. apply IHr; simpl.
    + by rewrite <- !app_assoc.
    + apply Forall_app. split; [done|].
      apply Forall_app. split; [|by apply Forall_singleton].
      apply Forall_forall. intros y Hy.
      assert (y ≤ x)%Z; [|lia].
      apply (StronglySorted_app_1_elem_of _ _ _ _ _ Hs' Hy). left.
    + done.
Qed.

Lemma ins_sorted a k t :
  StronglySorted Z.le (inorder t) → StronglySorted Z.le (inorder (ins a k t)).
Proof.
  intros Hs. rewrite ins_inorder.
  pose proof (descend_inorder k t []) as He. simpl in He.
  rewrite app_nil_r in He.
  destruct (descend_bounds k t []) as [Hl Hr]; simpl; try done.
  { by rewrite app_nil_r. }
  rewrite <- He in Hs. apply StronglySorted_app in Hs as (Hlr & Hsl & Hsr).
  apply StronglySorted_app. split_and!; [|done|].
  - intros x1 x2 H1 [->|H2]%elem_of_cons.
    + rewrite Forall_forall in Hl. by apply Hl.
    + by apply Hlr.
  - apply StronglySorted_cons. split; [|done].
    eapply Forall_impl; [exact Hr|]. done.
Qed.

Lemma ins_perm a k t : inorder (ins a k t) ≡ₚ k :: inorder t.
Proof.
  rewrite ins_inorder.
  pose proof (descend_inorder k t []) as He. simpl in He.
  rewrite app_nil_r in He. rewrite <- He.
  by rewrite Permutation_middle.
Qed.

(** ** Height *)

Lemma inorder_length t : length (inorder t) = size t.
Proof.
  induction t as [|c l IHl a k r IHr]; simpl; [done|].
  rewrite length_app. simpl. lia.
Qed.

Lemma depth_le_size t : depth t ≤ size t.
Proof. induction t as [|c l IHl a k r IHr]; simpl; lia. Qed.

Lemma rb_depth t : ∀ n,
  rb t n →
  depth t ≤ 2 * n + (if tree_color t is RED then 1 else 0)
  ∧ 2 ^ n ≤ size t + 1.
Proof.
  induction t as [|c l IHl a k r IHr]; intros n Ht.
  - simpl in *. subst. simpl. lia.
  - destruct c; simpl in Ht.
    + destruct Ht as (Hlb & Hrb & Hl & Hr).
      destruct (IHl _ Hl) as [? ?]. destruct (IHr _ Hr) as [? ?].
      rewrite Hlb in *. rewrite Hrb in *. simpl. lia.
    + destruct n as [|n]; [done|]. destruct Ht as [Hl Hr].
      destruct (IHl _ Hl) as [? ?]. destruct (IHr _ Hr) as [? ?].
      simpl tree_color. cbn [depth size].
      rewrite Nat.pow_succ_r'.
      destruct (tree_color l), (tree_color r); lia.
Qed.

Lemma rb_depth_bound t n :
  rb t n → tree_color t = BLACK → 2 ^ depth t ≤ (size t + 1) ^ 2.
Proof.
  intros Ht Hb. destruct (rb_depth t n Ht) as [Hd Hs]. rewrite Hb in Hd.
  transitivity (2 ^ (2 * n)).
  - apply Nat.pow_le_mono_r; lia.
  - rewrite (Nat.mul_comm 2 n), Nat.pow_mul_r.
    by apply Nat.pow_le_mono_l.
Qed.

(** ** Read-only operations *)

Lemma rep_children st z c l a k r :
  Rep_z st z (T c l a k r) →
  Rep_z st (FL c a k r :: z) l ∧ Rep_z st (FR c l a k :: z) r.
Proof. intros R. split; by apply rep_up. Qed.

Ltac node_step R :=
  let Ha := fresh "Ha" in
  let Hne := fresh "Hne" in
  pose proof (rep_focus _ _ _ _ _ _ _ R) as Ha;
  pose proof (rep_focus_ne_nil _ _ _ _ _ _ _ R) as Hne;
  cbn [root_of];
  first [rewrite decide_True by congruence
        |rewrite decide_False by congruence];
  repeat (rewrite (rd_lookup _ _ _ _ Ha); cbn [rbind key left right node_of]).

Lemma rep_inorder t : ∀ fuel st z acc,
  Rep_z st z t → depth t < fuel →
  inorderTraversalHelper fuel st (Some (root_of t)) acc
  = Ok (acc ++ (Some <$> inorder t)).
Proof.
  induction t as [|c l IHl a k r IHr]; intros fuel st z acc R Hf;
    (destruct fuel as [|fuel]; [lia|]); cbn [inorderTraversalHelper].
  - simpl. by rewrite app_nil_r.
  - destruct (rep_children _ _ _ _ _ _ _ R) as [Rl Rr]. simpl in Hf.
    node_step R.
    rewrite (IHl _ _ _ _ Rl) by lia. cbn [rbind].
    repeat (rewrite (rd_lookup _ _ _ _ Ha); cbn [rbind key left right node_of]).
    rewrite (IHr _ _ _ _ Rr) by lia.
    simpl. rewrite fmap_app. simpl. by rewrite <- !app_assoc.
Qed.

Lemma rep_preorder t : ∀ fuel st z acc,
  Rep_z st z t → depth t < fuel →
  preorderTraversalHelper fuel st (Some (root_of t)) acc
  = Ok (acc ++ (Some <$> preorder t)).
Proof.
  induction t as [|c l IHl a k r IHr]; intros fuel st z acc R Hf;
    (destruct fuel as [|fuel]; [lia|]); cbn [preorderTraversalHelper].
  - simpl. by rewrite app_nil_r.
  - destruct (rep_children _ _ _ _ _ _ _ R) as [Rl Rr]. simpl in Hf.
    node_step R.
    rewrite (IHl _ _ _ _ Rl) by lia. cbn [rbind].
    repeat (rewrite (rd_lookup _ _ _ _ Ha); cbn [rbind key left right node_of]).
    rewrite (IHr _ _ _ _ Rr) by lia.
    simpl. rewrite fmap_app. by rewrite <- !app_assoc.
Qed.

Lemma rep_postorder t : ∀ fuel st z acc,
  Rep_z st z t → depth t < fuel →
  postorderTraversalHelper fuel st (Some (root_of t)) acc
  = Ok (acc ++ (Some <$> postorder t)).
Proof.
  induction t as [|c l IHl a k r IHr]; intros fuel st z acc R Hf;
    (destruct fuel as [|fuel]; [lia|]); cbn [postorderTraversalHelper].
  - simpl. by rewrite app_nil_r.
  - destruct (rep_children _ _ _ _ _ _ _ R) as [Rl Rr]. simpl in Hf.
    node_step R.
    rewrite (IHl _ _ _ _ Rl) by lia. cbn [rbind].
    repeat (rewrite (rd_lookup _ _ _ _ Ha); cbn [rbind key left right node_of]).
    rewrite (IHr _ _ _ _ Rr) by lia. cbn [rbind].
    repeat (rewrite (rd_lookup _ _ _ _ Ha); cbn [rbind key left right node_of]).
    simpl. rewrite !fmap_app. by rewrite <- !app_assoc.
Qed.

Lemma rep_getDepth t : ∀ fuel st z,
  Rep_z st z t → depth t < fuel →
  getDepthHelper fuel st (Some (root_of t)) = Ok (depth t).
Proof.
  induction t as [|c l IHl a k r IHr]; intros fuel st z R Hf;
    (destruct fuel as [|fuel]; [lia|]); cbn [getDepthHelper].
  - done.
  - destruct (rep_children _ _ _ _ _ _ _ R) as [Rl Rr]. simpl in Hf.
    node_step R.
    rewrite (IHl _ _ _ Rl) by lia. cbn [rbind].
    repeat (rewrite (rd_lookup _ _ _ _ Ha); cbn [rbind key left right node_of]).
    rewrite (IHr _ _ _ Rr) by lia. done.
Qed.

Lemma rep_search k t : ∀ fuel st z,
  Rep_z st z t → depth t < fuel →
  searchHelper fuel st (Some (root_of t)) (Some k) = Ok (Some (find k t)).
Proof.
  induction t as [|c l IHl a x r IHr]; intros fuel st z R Hf;
    (destruct fuel as [|fuel]; [lia|]); cbn [searchHelper].
  - done.
  - destruct (rep_children _ _ _ _ _ _ _ R) as [Rl Rr]. simpl in Hf.
    node_step R. unfold key_lt. cbn [to_number find].
    destruct (decide (k = x)) as [->|Hkx].
    + by rewrite decide_True.
    + rewrite decide_False by congruence.
      destruct (k <? x)%Z.
      * apply (IHl _ _ _ Rl). lia.
      * apply (IHr _ _ _ Rr). lia.
Qed.

Lemma find_spec k t :
  StronglySorted Z.le (inorder t) →
  (k ∈ inorder t → ∀ p, ∃ n, (find k t, n) ∈ cells p t ∧ key n = Some k)
  ∧ (k ∉ inorder t → find k t = NIL).
Proof.
  induction t as [|c l IHl a x r IHr]; intros Hs; simpl.
  - split; [by intros ?%elem_of_nil | done].
  - simpl in Hs. apply StronglySorted_app in Hs as (Hlr & Hsl & Hsr).
    apply StronglySorted_cons in Hsr as [Hxr Hsr].
    destruct (IHl Hsl) as [IHl1 IHl2]. destruct (IHr Hsr) as [IHr1 IHr2].
    rewrite Forall_forall in Hxr.
    destruct (decide (k = x)) as [->|Hkx].
    { split; [|intros Hn; exfalso; apply Hn, elem_of_app; right; left].
      intros _ p. eexists. split; [left|done]. }
    destruct (k <? x)%Z eqn:Hk.
    + apply Z.ltb_lt in Hk. split.
      * intros [Hin|[?|Hin]%elem_of_cons]%elem_of_app p; [|done|].
        -- destruct (IHl1 Hin (Some a)) as (n & Hn & Hkn).
           exists n. split; [|done]. right. apply elem_of_app. by left.
        -- apply Hxr in Hin. lia.
      * intros Hn. apply IHl2. intros ?. apply Hn, elem_of_app. by left.
    + apply Z.ltb_ge in Hk. split.
      * intros [Hin|[?|Hin]%elem_of_cons]%elem_of_app p; [|done|].
        -- specialize (Hlr k x Hin ltac:(left)). lia.
        -- destruct (IHr1 Hin (Some a)) as (n & Hn & Hkn).
           exists n. split; [|done]. right. apply elem_of_app. by right.
      * intros Hn. apply IHr2. intros ?. apply Hn, elem_of_app.
        right. by right.
Qed.

(** ** Minimum and maximum *)

Lemma rep_getMinimumNode l : ∀ fuel st z c a k r,
  Rep_z st z (T c l a k r) → depth l < fuel →
  getMinimumNode fuel st (Some a) = Ok (Some (leftmost a k l).1)
  ∧ (leftmost a k l).1 ≠ NIL
  ∧ key <$> heap st !! (leftmost a k l).1 = Some (Some (leftmost a k l).2).
Proof.
  induction l as [|cl ll IHl la lk lr _]; intros fuel st z c a k r R Hf;
    (destruct fuel as [|fuel]; [lia|]); cbn [getMinimumNode leftmost].
  - pose proof (rep_focus _ _ _ _ _ _ _ R) as Ha.
    pose proof (rep_focus_ne_nil _ _ _ _ _ _ _ R) as Hne.
    rewrite (rd_lookup _ _ _ _ Ha). cbn [rbind left node_of root_of].
    rewrite decide_False by (by intros ?). simpl. by rewrite Ha.
  - destruct (rep_children _ _ _ _ _ _ _ R) as [Rl _]. simpl in Hf.
    pose proof (rep_focus _ _ _ _ _ _ _ R) as Ha.
    pose proof (rep_focus_ne_nil _ _ _ _ _ _ _ Rl) as Hne.
    rewrite (rd_lookup _ _ _ _ Ha). cbn [rbind left node_of root_of].
    rewrite decide_True by congruence.
    apply (IHl _ _ _ _ _ _ _ Rl). lia.
Qed.

Lemma rep_getMaximumNode r : ∀ fuel st z c a k l,
  Rep_z st z (T c l a k r) → depth r < fuel →
  getMaximumNode fuel st (Some a) = Ok (Some (rightmost a k r).1)
  ∧ (rightmost a k r).1 ≠ NIL
  ∧ key <$> heap st !! (rightmost a k r).1 = Some (Some (rightmost a k r).2).
Proof.
  induction r as [|cr rl _ ra rk rr IHr]; intros fuel st z c a k l R Hf;
    (destruct fuel as [|fuel]; [lia|]); cbn [getMaximumNode rightmost].
  - pose proof (rep_focus _ _ _ _ _ _ _ R) as Ha.
    pose proof (rep_focus_ne_nil _ _ _ _ _ _ _ R) as Hne.
    rewrite (rd_lookup _ _ _ _ Ha). cbn [rbind right node_of root_of].
    rewrite decide_False by (by intros ?). simpl. by rewrite Ha.
  - destruct (rep_children _ _ _ _ _ _ _ R) as [_ Rr]. simpl in Hf.
    pose proof (rep_focus _ _ _ _ _ _ _ R) as Ha.
    pose proof (rep_focus_ne_nil _ _ _ _ _ _ _ Rr) as Hne.
    rewrite (rd_lookup _ _ _ _ Ha). cbn [rbind right node_of root_of].
    rewrite decide_True by congruence.
    apply (IHr _ _ _ _ _ _ _ Rr). lia.
Qed.

Lemma rep_getMinimum fuel st c l a k r :
  Rep st (T c l a k r) → depth l < fuel →
  getMinimum fuel st = Ok (Some (leftmost a k l).2).
Proof.
  intros R Hf. unfold getMinimum.
  replace (root st) with a by (by destruct R).
  destruct (rep_getMinimumNode l fuel st [] c a k r R Hf) as (-> & Hne & Hk).
  cbn [rbind]. rewrite decide_False by congruence.
  unfold rd, deref. destruct (heap st !! _) as [n|]; simpl in *; [|done].
  by injection Hk as ->.
Qed.

Lemma rep_getMaximum fuel st c l a k r :
  Rep st (T c l a k r) → depth r < fuel →
  getMaximum fuel st = Ok (Some (rightmost a k r).2).
Proof.
  intros R Hf. unfold getMaximum.
  replace (root st) with a by (by destruct R).
  destruct (rep_getMaximumNode r fuel st [] c a k l R Hf) as (-> & Hne & Hk).
  cbn [rbind]. rewrite decide_False by congruence.
  unfold rd, deref. destruct (heap st !! _) as [n|]; simpl in *; [|done].
  by injection Hk as ->.
Qed.

Lemma leftmost_head l : ∀ a k r,
  head (inorder l ++ k :: r) = Some (leftmost a k l).2.
Proof.
  induction l as [|cl ll IHl la lk lr _]; intros a k r; simpl; [done|].
  rewrite <- app_assoc. simpl. apply IHl.
Qed.

Lemma rightmost_last r : ∀ a k l,
  last (l ++ k :: inorder r) = Some (rightmost a k r).2.
Proof.
  induction r as [|cr rl _ ra rk rr IHr]; intros a k l; simpl.
  - by rewrite last_snoc.
  - replace (l ++ k :: inorder rl ++ rk :: inorder rr)
      with ((l ++ k :: inorder rl) ++ rk :: inorder rr)
      by (by rewrite <- app_assoc).
    apply IHr.
Qed.

(** On an empty tree the sentinel's [left] and [right] fields are read;
    they are [null], and the next field access raises. *)
Lemma rep_getMinimum_empty fuel st :
  Rep st E → 2 ≤ fuel → getMinimum fuel st = TypeError.
Proof.
  intros R Hf. pose proof (rep_nil _ _ _ R) as Hn.
  destruct R as [_ Hr]. simpl in Hr.
  destruct fuel as [|[|fuel]]; [lia..|].
  unfold getMinimum. cbn [getMinimumNode]. rewrite Hr.
  rewrite (rd_lookup _ _ _ _ Hn). done.
Qed.

Lemma rep_getMaximum_empty fuel st :
  Rep st E → 2 ≤ fuel → getMaximum fuel st = TypeError.
Proof.
  intros R Hf. pose proof (rep_nil _ _ _ R) as Hn.
  destruct R as [_ Hr]. simpl in Hr.
  destruct fuel as [|[|fuel]]; [lia..|].
  unfold getMaximum. cbn [getMaximumNode]. rewrite Hr.
  rewrite (rd_lookup _ _ _ _ Hn). done.
Qed.

(** ** Level-order traversal *)

Lemma push_child st z t q :
  Rep_z st z t →
  (if decide (Some (root_of t) ≠ Some NIL)
   then queue_refs q ++ [Some (root_of t)] else queue_refs q)
  = queue_refs (q ++ subtree z t).
Proof.
  intros R. unfold queue_refs. rewrite fmap_app.
  destruct t as [|c l a k r]; simpl.
  - by rewrite app_nil_r.
  - pose proof (rep_focus_ne_nil _ _ _ _ _ _ _ R).
    rewrite decide_True by congruence. done.
Qed.

Lemma subtree_keys z t : queue_keys (subtree z t) = inorder t.
Proof. destruct t; [done|]. unfold queue_keys. simpl. by rewrite app_nil_r. Qed.

Lemma subtree_size z t : queue_size (subtree z t) = size t.
Proof. destruct t; [done|]. unfold queue_size. simpl. lia. Qed.

Lemma subtree_rep st z t :
  Rep_z st z t → Forall (λ zt, Rep_z st zt.1 zt.2 ∧ zt.2 ≠ E) (subtree z t).
Proof.
  intros R. destruct t; [by constructor|].
  apply Forall_singleton. by split.
Qed.

Lemma rep_levelOrder st fuel : ∀ q acc,
  Forall (λ zt, Rep_z st zt.1 zt.2 ∧ zt.2 ≠ E) q →
  queue_size q < fuel →
  ∃ l, levelOrder_loop fuel st (queue_refs q) acc = Ok (acc ++ (Some <$> l))
       ∧ l ≡ₚ queue_keys q.
Proof.
  induction fuel as [|fuel IH]; intros q acc Hq Hf; [lia|].
  cbn [levelOrder_loop]. destruct q as [|[z t] q].
  { exists []. by rewrite app_nil_r. }
  apply Forall_cons in Hq as [[R Hne] Hq]. simpl in R, Hne.
  destruct t as [|c l a k r]; [done|].
  destruct (rep_children _ _ _ _ _ _ _ R) as [Rl Rr].
  pose proof (rep_focus _ _ _ _ _ _ _ R) as Ha.
  cbn [queue_refs fmap list_fmap snd root_of].
  rewrite (rd_lookup _ _ _ _ Ha). cbn [rbind key node_of].
  rewrite (rd_lookup _ _ _ _ Ha). cbn [rbind left node_of].
  fold (queue_refs q). rewrite (push_child _ _ _ _ Rl).
  rewrite (rd_lookup _ _ _ _ Ha). cbn [rbind right node_of].
  rewrite (push_child _ _ _ _ Rr).
  destruct (IH ((q ++ subtree (FL c a k r :: z) l)
                  ++ subtree (FR c l a k :: z) r) (acc ++ [Some k]))
    as (l' & El & Hl').
  { rewrite !Forall_app. split_and!; [done | by apply subtree_rep..]. }
  { unfold queue_size in *. rewrite !sum_list_with_app.
    fold (queue_size (subtree (FL c a k r :: z) l)).
    fold (queue_size (subtree (FR c l a k :: z) r)).
    rewrite !subtree_size. simpl in Hf. lia. }
  exists (k :: l'). split.
  - rewrite El. by rewrite <- app_assoc.
  - rewrite Hl'. unfold queue_keys. rewrite !fmap_app, !concat_app.
    fold (queue_keys (subtree (FL c a k r :: z) l)).
    fold (queue_keys (subtree (FR c l a k :: z) r)).
    rewrite !subtree_keys. simpl. 
    fold (queue_keys q). solve_Permutation.
Qed.

(** ** More fuel does not change a result *)

Lemma returns_intro {A} (f : nat → result A) n v :
  (∀ m w, f m = Ok w → f (S m) = Ok w) → f n = Ok v → returns f v.
Proof.
  intros Hmono Hn. exists n. intros fuel Hle.
  induction Hle as [|m Hle IH]; [done | by apply Hmono].
Qed.

Lemma mono_le {A} (f : nat → result A) n m v :
  (∀ i w, f i = Ok w → f (S i) = Ok w) → f n = Ok v → n ≤ m → f m = Ok v.
Proof. intros Hmono Hn Hle. induction Hle; [done | by apply Hmono]. Qed.

Lemma returns_inj {A} (f : nat → result A) v w :
  returns f v → returns f w → v = w.
Proof.
  intros [n Hn] [m Hm].
  specialize (Hn (n `max` m) ltac:(lia)).
  specialize (Hm (n `max` m) ltac:(lia)). congruence.
Qed.

Lemma insert_descend_mono fuel : ∀ st k y x v,
  insert_descend fuel st k y x = Ok v →
  insert_descend (S fuel) st k y x = Ok v.
Proof.
  induction fuel as [|fuel IH]; intros st k y x v H; [done|].
  cbn [insert_descend] in *. case_decide; [|done].
  destruct (rd key st x) as [xk| |]; [|done..]. cbn [rbind] in *.
  destruct (key_lt k xk).
  - destruct (rd left st x); [|done..]. by apply IH.
  - destruct (rd right st x); [|done..]. by apply IH.
Qed.

Lemma fixInsert_loop_mono fuel : ∀ st k v,
  fixInsert_loop fuel st k = Ok v → fixInsert_loop (S fuel) st k = Ok v.
Proof.
  induction fuel as [|fuel IH]; intros st k v H; [done|].
  cbn [fixInsert_loop] in *.
  destruct (fixInsert_cond st k) as [[]| |]; [|done..]. cbn [rbind] in *.
  destruct (fixInsert_body st k) as [[st1 k1]| |]; [|done..].
  cbn [rbind] in *. case_decide; [done|]. by apply IH.
Qed.

Lemma insert_mono fuel st k v :
  insert fuel st k = Ok v → insert (S fuel) st k = Ok v.
Proof.
  unfold insert, alloc. intros H.
  destruct (insert_descend fuel _ _ _ _) as [y| |] eqn:Ed; [|done..].
  rewrite (insert_descend_mono _ _ _ _ _ _ Ed). cbn [rbind] in *.
  destruct (wr _ _ _) as [st1| |]; [|done..]. cbn [rbind] in *.
  destruct (match y with Some _ => _ | None => _ end) as [st2| |]; [|done..].
  cbn [rbind] in *.
  destruct (rd parent st2 _) as [[np|]| |]; [|done..]. cbn [rbind] in *.
  destruct (rd parent st2 _) as [[npp|]| |]; [|done..]. cbn [rbind] in *.
  unfold fixInsert in *.
  destruct (fixInsert_loop fuel _ _) as [st3| |] eqn:El; [|done..].
  by rewrite (fixInsert_loop_mono _ _ _ _ El).
Qed.

Lemma insertAll_mono fuel ks : ∀ st v,
  insertAll fuel st ks = Ok v → insertAll (S fuel) st ks = Ok v.
Proof.
  induction ks as [|k ks IH]; intros st v H; [done|]. simpl in *.
  destruct (insert fuel st k) as [st1| |] eqn:Ei; [|done..].
  rewrite (insert_mono _ _ _ _ Ei). by apply IH.
Qed.

Lemma levelOrder_loop_mono fuel : ∀ st q acc v,
  levelOrder_loop fuel st q acc = Ok v →
  levelOrder_loop (S fuel) st q acc = Ok v.
Proof.
  induction fuel as [|fuel IH]; intros st q acc v H; [done|].
  cbn [levelOrder_loop] in *. destruct q as [|node q]; [done|].
  destruct (rd key st node); [|done..]. cbn [rbind] in *.
  destruct (rd left st node); [|done..]. cbn [rbind] in *.
  destruct (rd right st node); [|done..]. cbn [rbind] in *.
  by apply IH.
Qed.

(** ** The class invariant *)

Lemma rep_new : Rep new_tree E.
Proof.
  split; [|done]. split; [by repeat constructor|].
  simpl. apply NoDup_singleton.
Qed.

Lemma well_formed_new : well_formed new_tree [].
Proof. exists E, 0. split_and!; try done; [apply rep_new | constructor]. Qed.

Lemma size_keys t ks : inorder t ≡ₚ ks → size t = length ks.
Proof. intros Hp. by rewrite <- Hp, inorder_length. Qed.

Lemma depth_keys t ks : inorder t ≡ₚ ks → depth t ≤ length ks.
Proof. intros Hp. rewrite <- (size_keys t ks Hp). apply depth_le_size. Qed.

Lemma well_formed_insert fuel st ks k :
  well_formed st ks → length ks < fuel →
  ∃ st', insert fuel st k = Ok st' ∧ well_formed st' (k :: ks).
Proof.
  intros (t & n & R & Hb & Hrb & Hs & Hp) Hf.
  destruct (rep_insert fuel st t k R Hb) as (st' & Ei & R').
  { pose proof (depth_keys _ _ Hp). lia. }
  destruct (ins_rb (length (heap st)) k t n Hrb Hb) as (m & Hm & Hb').
  exists st'. split; [done|].
  exists (ins (length (heap st)) k t), m. split_and!; try done.
  - by apply ins_sorted.
  - by rewrite ins_perm, Hp.
Qed.

Lemma well_formed_clear st ks : well_formed st ks → well_formed (clear st) [].
Proof.
  intros (t & n & [Hc _] & _). exists E, 0.
  split_and!; try done; [|constructor].
  split; [|done]. simpl. by apply (holds_app_l _ [_] (zcells [] t)).
Qed.

Lemma well_formed_insertAll fuel ks : ∀ st ks0,
  well_formed st ks0 → length ks0 + length ks ≤ fuel →
  ∃ st', insertAll fuel st ks = Ok st' ∧ well_formed st' (reverse ks ++ ks0).
Proof.
  induction ks as [|k ks IH]; intros st ks0 Hw Hf; simpl in *.
  { by exists st. }
  destruct (well_formed_insert fuel st ks0 k Hw) as (st1 & -> & Hw1); [lia|].
  destruct (IH st1 (k :: ks0) Hw1) as (st2 & E2 & Hw2); [simpl; lia|].
  exists st2. split; [done|]. by rewrite reverse_cons, <- app_assoc.
Qed.

(** ** Results of the queries on a represented tree *)

Lemma inorderTraversal_returns st t :
  Rep st t → returns (λ fuel, inorderTraversal fuel st) (Some <$> inorder t).
Proof.
  intros R. exists (S (depth t)). intros fuel Hf. unfold inorderTraversal.
  replace (root st) with (root_of t) by (by destruct R).
  by rewrite (rep_inorder t fuel st [] [] R) by lia.
Qed.

Lemma preorderTraversal_returns st t :
  Rep st t → returns (λ fuel, preorderTraversal fuel st) (Some <$> preorder t).
Proof.
  intros R. exists (S (depth t)). intros fuel Hf. unfold preorderTraversal.
  replace (root st) with (root_of t) by (by destruct R).
  by rewrite (rep_preorder t fuel st [] [] R) by lia.
Qed.

Lemma postorderTraversal_returns st t :
  Rep st t →
  returns (λ fuel, postorderTraversal fuel st) (Some <$> postorder t).
Proof.
  intros R. exists (S (depth t)). intros fuel Hf. unfold postorderTraversal.
  replace (root st) with (root_of t) by (by destruct R).
  by rewrite (rep_postorder t fuel st [] [] R) by lia.
Qed.

Lemma levelOrderTraversal_returns st t :
  Rep st t →
  ∃ l, returns (λ fuel, levelOrderTraversal fuel st) (Some <$> l)
       ∧ l ≡ₚ inorder t.
Proof.
  intros R. destruct t as [|c l a k r].
  - exists []. split; [|done]. exists 0. intros fuel _.
    unfold levelOrderTraversal. destruct R as [_ ->]. done.
  - destruct (rep_levelOrder st (S (size (T c l a k r))) [([], T c l a k r)] [])
      as (ks & Ek & Hp).
    { apply Forall_singleton. by split. }
    { unfold queue_size. simpl. lia. }
    exists ks. split.
    + apply returns_intro with (S (size (T c l a k r))).
      * unfold levelOrderTraversal. intros m w. case_decide; [done|].
        apply levelOrder_loop_mono.
      * unfold levelOrderTraversal.
        pose proof (rep_focus_ne_nil _ _ _ _ _ _ _ R).
        destruct R as [_ Hr]. simpl in Hr. rewrite Hr.
        rewrite decide_False by done. exact Ek.
    + rewrite Hp. unfold queue_keys. simpl. by rewrite app_nil_r.
Qed.

Lemma getDepth_returns st t :
  Rep st t → returns (λ fuel, getDepth fuel st) (depth t).
Proof.
  intros R. exists (S (depth t)). intros fuel Hf. unfold getDepth.
  replace (root st) with (root_of t) by (by destruct R).
  by rewrite (rep_getDepth t fuel st [] R) by lia.
Qed.

Lemma search_returns st t k :
  Rep st t → returns (λ fuel, search fuel st k) (Some (find k t)).
Proof.
  intros R. exists (S (depth t)). intros fuel Hf. unfold search.
  replace (root st) with (root_of t) by (by destruct R).
  by rewrite (rep_search k t fuel st [] R) by lia.
Qed.

Lemma preorder_perm t : preorder t ≡ₚ inorder t.
Proof.
  induction t as [|c l IHl a k r IHr]; simpl; [done|].
  rewrite IHl, IHr. solve_Permutation.
Qed.

Lemma postorder_perm t : postorder t ≡ₚ inorder t.
Proof.
  induction t as [|c l IHl a k r IHr]; simpl; [done|].
  rewrite IHl, IHr. solve_Permutation.
Qed.

(** ** Runs of operations *)

Lemma after_ok {A} (r : result A) st : r ≠ OutOfFuel → after r st = Ok st.
Proof. by destruct r. Qed.

Lemma queries_terminate st t fuel k :
  Rep st t → size t + 2 ≤ fuel →
  search fuel st k ≠ OutOfFuel
  ∧ preorderTraversal fuel st ≠ OutOfFuel
  ∧ inorderTraversal fuel st ≠ OutOfFuel
  ∧ postorderTraversal fuel st ≠ OutOfFuel
  ∧ levelOrderTraversal fuel st ≠ OutOfFuel
  ∧ getMinimum fuel st ≠ OutOfFuel
  ∧ getMaximum fuel st ≠ OutOfFuel
  ∧ getDepth fuel st ≠ OutOfFuel.
Proof.
  intros R Hf. pose proof (depth_le_size t) as Hd.
  assert (Hroot : root st = root_of t) by (by destruct R).
  split_and!.
  - unfold search. rewrite Hroot, (rep_search k t fuel st [] R) by lia. done.
  - unfold preorderTraversal.
    rewrite Hroot, (rep_preorder t fuel st [] [] R) by lia. done.
  - unfold inorderTraversal.
    rewrite Hroot, (rep_inorder t fuel st [] [] R) by lia. done.
  - unfold postorderTraversal.
    rewrite Hroot, (rep_postorder t fuel st [] [] R) by lia. done.
  - unfold levelOrderTraversal. destruct t as [|c l a x r].
    + simpl in Hroot. by rewrite decide_True.
    + pose proof (rep_focus_ne_nil _ _ _ _ _ _ _ R). simpl in Hroot.
      rewrite decide_False by congruence. rewrite Hroot.
      destruct (rep_levelOrder st fuel [([], T c l a x r)] []) as (ks & Ek & _);
        [by apply Forall_singleton | unfold queue_size; simpl in *; lia |].
      unfold queue_refs in Ek. simpl in Ek. by rewrite Ek.
  - destruct t as [|c l a x r].
    + by rewrite rep_getMinimum_empty by (done || lia).
    + rewrite (rep_getMinimum fuel st c l a x r R); [done|].
      pose proof (depth_le_size l). simpl in Hf. lia.
  - destruct t as [|c l a x r].
    + by rewrite rep_getMaximum_empty by (done || lia).
    + rewrite (rep_getMaximum fuel st c l a x r R); [done|].
      pose proof (depth_le_size r). simpl in Hf. lia.
  - unfold getDepth. rewrite Hroot, (rep_getDepth t fuel st [] R) by lia. done.
Qed.

Lemma exec_well_formed fuel o st ks :
  well_formed st ks → length ks + 2 ≤ fuel →
  ∃ st' ks', exec fuel o st = Ok st' ∧ well_formed st' ks'
             ∧ length ks' ≤ S (length ks).
Proof.
  intros Hw Hf.
  assert (∀ A (r : result A), r ≠ OutOfFuel →
            ∃ st' ks', after r st = Ok st' ∧ well_formed st' ks'
                       ∧ length ks' ≤ S (length ks)) as Hq.
  { intros A r Hr. exists st, ks. rewrite after_ok by done.
    split_and!; [done..|lia]. }
  destruct o; simpl;
    try (destruct Hw as (t & n & R & Hb & Hrb & Hs & Hp);
         pose proof (size_keys _ _ Hp);
         apply Hq;
         (apply (queries_terminate st t fuel 0 R); lia)
         || (by apply (queries_terminate st t fuel k R); lia)).
  - destruct (well_formed_insert fuel st ks k Hw) as (st1 & -> & Hw1); [lia|].
    by exists st1, (k :: ks).
  - exists st, ks. split_and!; [done..|lia].
  - exists (clear st), []. split_and!; [done| |simpl; lia].
    by eapply well_formed_clear.
Qed.

Lemma exec_fuel fuel1 fuel2 o st ks :
  well_formed st ks → length ks + 2 ≤ fuel1 → length ks + 2 ≤ fuel2 →
  exec fuel1 o st = exec fuel2 o st.
Proof.
  intros Hw H1 H2.
  destruct o; simpl; try done;
    try (destruct Hw as (t & n & R & Hb & Hrb & Hs & Hp);
         pose proof (size_keys _ _ Hp);
         rewrite !after_ok; [done|..];
         (apply (queries_terminate st t _ 0 R); lia)
         || (by apply (queries_terminate st t _ k R); lia)).
  destruct (well_formed_insert (length ks + 2) st ks k Hw) as (st1 & Ei & _);
    [lia|].
  rewrite (mono_le (λ fuel, insert fuel st k) _ fuel1 _
             (λ i w, insert_mono i st k w) Ei H1).
  by rewrite (mono_le (λ fuel, insert fuel st k) _ fuel2 _
                (λ i w, insert_mono i st k w) Ei H2).
Qed.

Lemma well_formed_run fuel os : ∀ st ks0,
  well_formed st ks0 → length ks0 + length os + 2 ≤ fuel →
  ∃ st' ks, run fuel os st = Ok st' ∧ well_formed st' ks.
Proof.
  induction os as [|o os IH]; intros st ks0 Hw Hf; simpl in *.
  { by exists st, ks0. }
  destruct (exec_well_formed fuel o st ks0 Hw) as (st1 & ks1 & -> & Hw1 & Hl);
    [lia|].
  apply (IH st1 ks1 Hw1). lia.
Qed.

Lemma run_fuel fuel1 fuel2 os : ∀ st ks0,
  well_formed st ks0 →
  length ks0 + length os + 2 ≤ fuel1 → length ks0 + length os + 2 ≤ fuel2 →
  run fuel1 os st = run fuel2 os st.
Proof.
  induction os as [|o os IH]; intros st ks0 Hw H1 H2; simpl in *; [done|].
  rewrite (exec_fuel fuel1 fuel2 o st ks0 Hw) by lia.
  destruct (exec_well_formed fuel2 o st ks0 Hw) as (st1 & ks1 & -> & Hw1 & Hl);
    [lia|].
  apply (IH st1 ks1 Hw1); lia.
Qed.

Lemma insertAll_returns ks :
  ∃ st, returns (λ fuel, insertAll fuel new_tree ks) st
        ∧ well_formed st (reverse ks).
Proof.
  destruct (well_formed_insertAll (length ks) ks new_tree [] well_formed_new)
    as (st & Es & Hw); [simpl; lia|].
  exists st. rewrite app_nil_r in Hw. split; [|done].
  eapply returns_intro; [|exact Es]. intros. by apply insertAll_mono.
Qed.

Lemma run_returns os :
  ∃ st ks, returns (λ fuel, run fuel os new_tree) st ∧ well_formed st ks.
Proof.
  destruct (well_formed_run (length os + 2) os new_tree [] well_formed_new)
    as (st & ks & Es & Hw); [simpl; lia|].
  exists st, ks. split; [|done]. exists (length os + 2). intros fuel Hf.
  rewrite <- Es. apply (run_fuel _ _ os new_tree [] well_formed_new); simpl; lia.
Qed.

(** ** Rotations touch neither keys nor colors *)

Lemma same_keys_colors_refl st : same_keys_colors st st.
Proof. done. Qed.

Lemma same_keys_colors_trans st1 st2 st3 :
  same_keys_colors st1 st2 → same_keys_colors st2 st3 →
  same_keys_colors st1 st3.
Proof.
  intros H1 H2 a. destruct (H2 a) as [-> ->]. apply H1.
Qed.

Lemma wr_same_keys_colors upd st p st' :
  (∀ n, key (upd n) = key n ∧ color (upd n) = color n) →
  wr upd st p = Ok st' → same_keys_colors st st'.
Proof.
  intros Hupd. unfold wr. destruct p as [a|]; [|done].
  destruct (heap st !! a) as [n|] eqn:Ha; [|done].
  intros [= <-] b. simpl. destruct (decide (a = b)) as [->|Hne].
  - rewrite list_lookup_insert_eq by (by eapply lookup_lt_Some).
    rewrite Ha. simpl. destruct (Hupd n) as [-> ->]. done.
  - by rewrite list_lookup_insert_ne.
Qed.

Lemma preserves_ok st st0 : same_keys_colors st st0 → preserves (Ok st0) st.
Proof. by intros H st' [= <-]. Qed.

Lemma preserves_wr upd st st0 p :
  (∀ n, key (upd n) = key n ∧ color (upd n) = color n) →
  same_keys_colors st st0 → preserves (wr upd st0 p) st.
Proof.
  intros Hupd H st' E. eapply same_keys_colors_trans; [exact H|].
  by eapply wr_same_keys_colors.
Qed.

Lemma preserves_bind m k st :
  preserves m st → (∀ st1, same_keys_colors st st1 → preserves (k st1) st) →
  preserves (rbind m k) st.
Proof.
  intros Hm Hk st' E. destruct m as [st1| |]; [|done..].
  apply (Hk st1); [by apply Hm | done].
Qed.

Lemma preserves_bind_rd {B} (m : result B) k st :
  (∀ v, preserves (k v) st) → preserves (rbind m k) st.
Proof. intros Hk st' E. destruct m as [v| |]; [|done..]. by apply (Hk v). Qed.

Ltac preserves_tac :=
  repeat first
    [ lazymatch goal with
      | |- preserves (rbind (rd _ _ _) _) _ =>
        apply preserves_bind_rd; intros ?
      end
    | apply preserves_bind; [|intros ? ?]
    | apply preserves_wr; [by intros [] | assumption]
    | apply preserves_ok; assumption
    | progress case_match
    | progress case_decide
    | by intros ? ? ].

Lemma leftRotate_preserves st x : preserves (leftRotate st x) st.
Proof.
  pose proof (same_keys_colors_refl st). unfold leftRotate. preserves_tac.
Qed.

Lemma rightRotate_preserves st x : preserves (rightRotate st x) st.
Proof.
  pose proof (same_keys_colors_refl st). unfold rightRotate. preserves_tac.
Qed.

(** ** Any node of a tree can be brought into focus *)

Lemma plug_app z1 z2 t : plug (z1 ++ z2) t = plug z2 (plug z1 t).
Proof. revert t. induction z1 as [|f z1 IH]; intros t; [done|]. apply IH. Qed.

Lemma focus_addr t x :
  x ∈ addrs t → ∃ z c l k r, plug z (T c l x k r) = t.
Proof.
  induction t as [|c l IHl a k r IHr]; simpl; [by intros ?%elem_of_nil|].
  intros [->|[Hin|Hin]%elem_of_app]%elem_of_cons.
  - by exists [], c, l, k, r.
  - destruct (IHl Hin) as (z & c' & l' & k' & r' & <-).
    exists (z ++ [FL c a k r]), c', l', k', r'. by rewrite plug_app.
  - destruct (IHr Hin) as (z & c' & l' & k' & r' & <-).
    exists (z ++ [FR c l a k]), c', l', k', r'. by rewrite plug_app.
Qed.

(** * The claims *)

(** C1.  After any sequence of [insert] calls on a fresh tree the five
    red-black invariants hold: colors are [RED] or [BLACK] (by typing),
    the root is black or the tree is empty, the sentinel is black, no red
    node has a red child, and all paths from a node down to the sentinel
    pass the same number of black nodes. *)
Theorem insert_red_black (ks : list Z) :
  ∃ st, returns (λ fuel, insertAll fuel new_tree ks) st ∧ red_black st.
Proof.
  destruct (insertAll_returns ks) as (st & Hr & t & n & R & Hb & Hrb & _).
  exists st. split; [done|]. exists t, n. split_and!; try done.
  by rewrite (rep_nil _ _ _ R).
Qed.

(** C3 fails on the code: on an empty tree [getMinimumNode] starts at the
    sentinel, whose [left] field is [null] and not the sentinel, so the
    loop steps to [null] and the next read of [current.left] raises
    [TypeError]; [getMaximum] likewise.  This is so on a fresh tree and on
    a tree emptied by [clear]. *)
Theorem getMinimum_getMaximum_empty_throw :
  throws (λ fuel, getMinimum fuel new_tree)
  ∧ throws (λ fuel, getMaximum fuel new_tree)
  ∧ throws (λ fuel, getMinimum fuel (clear three_node_state))
  ∧ throws (λ fuel, getMaximum fuel (clear three_node_state)).
Proof.
  assert (Rep (clear three_node_state) E) as Rc.
  { split; [|done]. split; [by repeat constructor | apply NoDup_singleton]. }
  split_and!; exists 2; intros fuel Hf.
  - by apply rep_getMinimum_empty; [apply rep_new|].
  - by apply rep_getMaximum_empty; [apply rep_new|].
  - by apply rep_getMinimum_empty.
  - by apply rep_getMaximum_empty.
Qed.

(** C4.  After any sequence of [insert] calls, duplicates included,
    [inorderTraversal] returns the inserted keys in non-decreasing
    order. *)
Theorem inorderTraversal_sorted (ks : list Z) :
  ∃ st l, returns (λ fuel, insertAll fuel new_tree ks) st
          ∧ returns (λ fuel, inorderTraversal fuel st) (Some <$> l)
          ∧ Sorted Z.le l ∧ l ≡ₚ ks.
Proof.
  destruct (insertAll_returns ks) as (st & Hr & t & n & R & _ & _ & Hs & Hp).
  exists st, (inorder t). split_and!; try done.
  - by apply inorderTraversal_returns.
  - by apply StronglySorted_Sorted.
  - by rewrite Hp, reverse_Permutation.
Qed.

(** C5.  After any sequence of [insert] calls, [search] returns a node
    with an equal key for every inserted key, and the sentinel for every
    key that was not inserted. *)
Theorem search_correct (ks : list Z) :
  ∃ st, returns (λ fuel, insertAll fuel new_tree ks) st
        ∧ ∀ k,
            (k ∈ ks →
             ∃ a n, returns (λ fuel, search fuel st k) (Some a)
                    ∧ a ≠ NIL ∧ heap st !! a = Some n ∧ key n = Some k)
            ∧ (k ∉ ks → returns (λ fuel, search fuel st k) (Some NIL)).
Proof.
  destruct (insertAll_returns ks) as (st & Hr & t & n & R & _ & _ & Hs & Hp).
  exists st. split; [done|]. intros k.
  destruct (find_spec k t Hs) as [Hin Hout].
  rewrite reverse_Permutation in Hp.
  pose proof (search_returns st t k R) as Hsearch.
  split; intros Hk.
  - destruct (Hin ltac:(by rewrite Hp) None) as (nd & Hnd & Hkey).
    exists (find k t), nd. split_and!; try done.
    + destruct R as [[_ Hn] _]. simpl in Hn. apply NoDup_cons in Hn as [Hn _].
      intros Heq. apply Hn. rewrite <- Heq. unfold zcells. simpl.
      apply list_elem_of_fmap. by exists (find k t, nd).
    + destruct R as [Hc _]. eapply holds_lookup; [exact Hc|]. by right.
  - rewrite Hout in Hsearch; [done | by rewrite Hp].
Qed.

(** C6.  After [n] calls of [insert] on a fresh tree [getDepth] returns
    a depth [d] with [d ≤ 2·log2(n+1)], that is [2^d ≤ (n+1)^2]. *)
Theorem getDepth_bound (ks : list Z) :
  ∃ st d, returns (λ fuel, insertAll fuel new_tree ks) st
          ∧ returns (λ fuel, getDepth fuel st) d
          ∧ 2 ^ d ≤ (length ks + 1) ^ 2.
Proof.
  destruct (insertAll_returns ks) as (st & Hr & t & n & R & Hb & Hrb & _ & Hp).
  exists st, (depth t). split_and!; try done.
  - by apply getDepth_returns.
  - rewrite <- (length_reverse ks), <- (size_keys t _ Hp).
    by eapply rb_depth_bound.
Qed.

(** C8.  After any sequence of [insert] calls the preorder, postorder and
    level-order traversals return the same multiset of keys as the
    inorder traversal. *)
Theorem traversals_same_keys (ks : list Z) :
  ∃ st lin lpre lpost llev,
    returns (λ fuel, insertAll fuel new_tree ks) st
    ∧ returns (λ fuel, inorderTraversal fuel st) lin
    ∧ returns (λ fuel, preorderTraversal fuel st) lpre
    ∧ returns (λ fuel, postorderTraversal fuel st) lpost
    ∧ returns (λ fuel, levelOrderTraversal fuel st) llev
    ∧ lpre ≡ₚ lin ∧ lpost ≡ₚ lin ∧ llev ≡ₚ lin
    ∧ length lpre = length lin ∧ length lpost = length lin
    ∧ length llev = length lin.
Proof.
  destruct (insertAll_returns ks) as (st & Hr & t & n & R & _).
  destruct (levelOrderTraversal_returns st t R) as (l & Hl & Hp).
  exists st, (Some <$> inorder t), (Some <$> preorder t),
    (Some <$> postorder t), (Some <$> l).
  assert ((Some <$> preorder t) ≡ₚ (Some <$> inorder t)) as H1
    by (by rewrite preorder_perm).
  assert ((Some <$> postorder t) ≡ₚ (Some <$> inorder t)) as H2
    by (by rewrite postorder_perm).
  assert ((Some <$> l) ≡ₚ (Some <$> inorder t)) as H3 by (by rewrite Hp).
  split_and!; try done.
  - by apply inorderTraversal_returns.
  - by apply preorderTraversal_returns.
  - by apply postorderTraversal_returns.
  - by rewrite H1.
  - by rewrite H2.
  - by rewrite H3.
Qed.

(** C9.  After any sequence of public operations the sentinel still has
    the fields the constructor gave it: color [BLACK], and [null] for
    key, parent, left and right. *)
Theorem sentinel_unchanged (os : list op) :
  ∃ st, returns (λ fuel, run fuel os new_tree) st
        ∧ heap st !! NIL = Some createNilNode.
Proof.
  destruct (run_returns os) as (st & ks & Hr & t & n & R & _).
  exists st. split; [done | by apply (rep_nil _ _ _ R)].
Qed.

(** C10.  [insert] terminates on every tree that earlier operations can
    produce: the descent loop and the fix-up loop together need no more
    passes than the tree is deep, plus one.  One pass of the fix-up loop
    either moves the current node two levels up or leaves it below a
    black parent, where the next test of the loop condition exits. *)
Theorem insert_terminates (os : list op) (k : Z) :
  (∃ st t st',
     returns (λ fuel, run fuel os new_tree) st ∧ Rep st t
     ∧ ∀ fuel, depth t < fuel → insert fuel st k = Ok st')
  ∧ (∀ st f1 f2 z c l a x r,
       Rep_z st (f1 :: f2 :: z) (T c l a x r) →
       ∃ st' z' t',
         fixInsert_body st (Some a) = Ok (st', Some (root_of t'))
         ∧ Rep_z st' z' t'
         ∧ (z' = z
            ∨ length z' = S (length z)
              ∧ fixInsert_cond st' (Some (root_of t')) = Ok false)).
Proof.
  split.
  - destruct (run_returns os) as (st & ks & Hr & t & n & R & Hb & _).
    destruct (rep_insert (S (depth t)) st t k R Hb) as (st' & Ei & _); [lia|].
    exists st, t, st'. split_and!; try done. intros fuel Hf.
    apply (mono_le (λ fuel, insert fuel st k) (S (depth t))); [|done|lia].
    intros. by apply insert_mono.
  - intros st f1 f2 z c l a x r R.
    destruct (rep_fix_body _ _ _ _ _ _ _ _ _ R) as (st' & Eb & R').
    destruct (fix_step_focus f1 f2 z c l a x r) as (c' & l' & a' & x' & r' & Et).
    destruct (fix_step_path f1 f2 z c l a x r) as [Hz|(f & Hz & Hf)].
    + eexists st', _, _. split_and!; [exact Eb | exact R' | by left].
    + eexists st', _, _. split_and!; [exact Eb | exact R' | right].
      rewrite Hz, Et in *. split; [done|]. cbn [root_of].
      rewrite (rep_fix_cond _ _ _ _ _ _ _ R').
      by rewrite bool_decide_false by (by rewrite Hf).
Qed.

Lemma rep_inorder_plug st z t t' :
  Rep_z st z t → inorder t' = inorder t →
  returns (λ fuel, inorderTraversal fuel st) (Some <$> inorder (plug z t')).
Proof.
  intros R He. apply rep_plug in R.
  replace (inorder (plug z t')) with (inorder (plug z t))
    by (by rewrite !inorder_plug, He).
  by apply inorderTraversal_returns.
Qed.

(** C7.  A rotation around a node of the tree whose child on the side of
    the pivot is a node keeps the inorder traversal and changes no key
    and no color. *)
Theorem rotation_preserves (st : RedBlackTree) (t : tree) (x : nat) :
  Rep st t → x ∈ addrs t →
  (child_is_node right st x →
   ∃ st' l, leftRotate st (Some x) = Ok st'
            ∧ returns (λ fuel, inorderTraversal fuel st) l
            ∧ returns (λ fuel, inorderTraversal fuel st') l
            ∧ same_keys_colors st st')
  ∧ (child_is_node left st x →
     ∃ st' l, rightRotate st (Some x) = Ok st'
              ∧ returns (λ fuel, inorderTraversal fuel st) l
              ∧ returns (λ fuel, inorderTraversal fuel st') l
              ∧ same_keys_colors st st').
Proof.
  intros R Hx. destruct (focus_addr t x Hx) as (z & c & l & k & r & <-).
  apply rep_plug in R. pose proof (rep_focus _ _ _ _ _ _ _ R) as Ha.
  split; intros (n & y & Hn & Hy & Hne); rewrite Ha in Hn; simplify_eq/=.
  - destruct r as [|cy b y ky cc]; [done|].
    destruct (rep_leftRotate _ _ _ _ _ _ _ _ _ _ _ R) as (st' & Er & R').
    exists st', (Some <$> inorder (plug z (T c l x k (T cy b y ky cc)))).
    split_and!; [done | | |].
    + by apply (rep_inorder_plug _ _ _ _ R).
    + apply (rep_inorder_plug _ _ _ _ R'). simpl.
      by rewrite <- app_assoc.
    + by apply (leftRotate_preserves st (Some x)).
  - destruct l as [|cy a y ky b]; [done|].
    destruct (rep_rightRotate _ _ _ _ _ _ _ _ _ _ _ R) as (st' & Er & R').
    exists st', (Some <$> inorder (plug z (T c (T cy a y ky b) x k r))).
    split_and!; [done | | |].
    + by apply (rep_inorder_plug _ _ _ _ R).
    + apply (rep_inorder_plug _ _ _ _ R'). simpl.
      by rewrite <- app_assoc.
    + by apply (rightRotate_preserves st (Some x)).
Qed.

Lemma rbind_assoc {A B C} (m : result A) (f : A → result B)
  (g : B → result C) :
  rbind (rbind m f) g = rbind m (λ a, rbind (f a) g).
Proof. by destruct m. Qed.

(** C2, as the code has it.  When the uncle is black and the current
    node is an inner grandchild, the loop rotates the parent towards the
    outside: a left rotation when the parent is the grandparent's left
    child and the current node is the parent's right child, a right
    rotation in the mirrored shape.  After the rotation the old parent is
    an outer grandchild, which is the shape of Case 3. *)
Theorem case2_rotation st z cp s pa pk cg ga gk u ck lk ka kk rk :
  tree_color u = BLACK →
  (Rep_z st (FR cp s pa pk :: FL cg ga gk u :: z) (T ck lk ka kk rk) →
   fixInsert_body st (Some ka)
   = case2_with leftRotate fix_case3_left st (Some ka)
   ∧ ∃ st1, leftRotate st (Some pa) = Ok st1
            ∧ Rep_z st1 (FL ck ka kk rk :: FL cg ga gk u :: z)
                (T cp s pa pk lk))
  ∧ (Rep_z st (FL cp pa pk s :: FR cg u ga gk :: z) (T ck lk ka kk rk) →
     fixInsert_body st (Some ka)
     = case2_with rightRotate fix_case3_right st (Some ka)
     ∧ ∃ st1, rightRotate st (Some pa) = Ok st1
              ∧ Rep_z st1 (FR ck lk ka kk :: FR cg u ga gk :: z)
                  (T cp rk pa pk s)).
Proof.
  intros Hu. split; intros R.
  - split.
    + unfold fixInsert_body, case2_with.
      destruct u as [|[] ul ua uk ur]; [|done|].
      * rep_open R.
        heap_rd. heap_rd. heap_rd. heap_no. unfold is_red. heap_rd.
        heap_bool. heap_rd. heap_yes. by destruct (leftRotate _ _).
      * rep_open R.
        heap_rd. heap_rd. heap_rd. heap_no. unfold is_red. heap_rd.
        heap_bool. heap_rd. heap_yes. by destruct (leftRotate _ _).
    + assert (Rep_z st (FL cg ga gk u :: z)
                (T cp s pa pk (T ck lk ka kk rk))) as R1
        by exact (proj1 (rep_up _ _ _ _) R).
      destruct (rep_leftRotate _ _ _ _ _ _ _ _ _ _ _ R1) as (st1 & E1 & R2).
      exists st1. split; [done|].
      exact (proj2 (rep_up st1 (FL ck ka kk rk) _ (T cp s pa pk lk)) R2).
  - split.
    + unfold fixInsert_body, case2_with.
      destruct u as [|[] ul ua uk ur]; [|done|].
      * rep_open R.
        heap_rd. heap_rd. heap_rd. heap_yes. heap_rd. unfold is_red. heap_rd.
        heap_bool. heap_rd. heap_yes. by destruct (rightRotate _ _).
      * rep_open R.
        heap_rd. heap_rd. heap_rd. heap_yes. heap_rd. unfold is_red. heap_rd.
        heap_bool. heap_rd. heap_yes. by destruct (rightRotate _ _).
    + assert (Rep_z st (FR cg u ga gk :: z)
                (T cp (T ck lk ka kk rk) pa pk s)) as R1
        by exact (proj1 (rep_up _ _ _ _) R).
      destruct (rep_rightRotate _ _ _ _ _ _ _ _ _ _ _ R1) as (st1 & E1 & R2).
      exists st1. split; [done|].
      exact (proj2 (rep_up st1 (FR ck lk ka kk) _ (T cp rk pa pk s)) R2).
Qed.

(** ** Concrete trees *)

Ltac rep_concrete :=
  split; [split; [repeat constructor
                 | apply (bool_decide_unpack _); vm_compute; exact I]
         | reflexivity].

Lemma rep_inner_left :
  Rep_z inner_left_state [FR RED E 2 1; FL BLACK 1 3 E] (T RED E 3 2 E).
Proof. rep_concrete. Defined.

Lemma rep_inner_right :
  Rep_z inner_right_state [FL RED 2 3 E; FR BLACK E 1 1] (T RED E 3 2 E).
Proof. rep_concrete. Defined.

Lemma rep_three_node :
  Rep three_node_state (T BLACK (T RED E 2 10 E) 1 20 (T RED E 3 30 E)).
Proof. rep_concrete. Defined.

Example three_node_reached :
  insertAll 3 new_tree [20; 10; 30]%Z = Ok three_node_state.
Proof. vm_compute. reflexivity. Qed.

(** Scenario 1 of the specification. *)
Example demo_inorder :
  (st ←r insertAll 10 new_tree [10; 20; 30; 15; 25; 5; 35; 40; 3; 7]%Z;
   inorderTraversal 10 st)
  = Ok (Some <$> [3; 5; 7; 10; 15; 20; 25; 30; 35; 40]%Z).
Proof. vm_compute. reflexivity. Qed.

(** Scenario 2: seven ascending keys give depth 4, not 7. *)
Example ascending_depth :
  (st ←r insertAll 7 new_tree [1; 2; 3; 4; 5; 6; 7]%Z; getDepth 7 st) = Ok 4.
Proof. vm_compute. reflexivity. Qed.

(** Scenario 4: a single key becomes a black root with two sentinel
    children. *)
Example single_key :
  insertAll 1 new_tree [42%Z]
  = Ok (mkTree [createNilNode;
                mkNode (Some 42%Z) BLACK (Some NIL) (Some NIL) None] 1).
Proof. vm_compute. reflexivity. Qed.

(** Scenario 3, the part that holds: an empty tree has depth 0 and is
    empty. *)
Example empty_depth : getDepth 1 new_tree = Ok 0 ∧ isEmpty new_tree = true.
Proof. split; vm_compute; reflexivity. Qed.

(** [inner_left_state] is the tree in which [insert(2)] calls [fixInsert]
    after [insert(3)] and [insert(1)]: the three calls give what one pass
    of the loop body on it, followed by the blackening of the root,
    gives. *)
Example inner_left_reached :
  insertAll 3 new_tree [3; 1; 2]%Z
  = (p ←r fixInsert_body inner_left_state (Some 3);
     wr (set_color BLACK) p.1 (Some (root p.1))).
Proof. vm_compute. reflexivity. Qed.

(** C2 as stated fails: in [inner_left_state] the parent (key 1) is the
    grandparent's left child, the current node (key 2) is the parent's
    right child and the uncle is the sentinel; the loop body rotates the
    parent to the left, and a right rotation of the parent would raise
    [TypeError], the parent having no left child. *)
Lemma case2_as_stated_fails :
  ¬ case2_as_stated
  ∧ fixInsert_body inner_left_state (Some 3)
    ≠ case2_with rightRotate fix_case3_left inner_left_state (Some 3)
  ∧ fixInsert_body inner_left_state (Some 3)
    = case2_with leftRotate fix_case3_left inner_left_state (Some 3)
  ∧ case2_with rightRotate fix_case3_left inner_left_state (Some 3)
    = TypeError.
Proof.
  assert (fixInsert_body inner_left_state (Some 3)
          ≠ case2_with rightRotate fix_case3_left inner_left_state (Some 3))
    as Hne by (vm_compute; discriminate).
  split_and!; [|done|vm_compute; reflexivity..].
  intros H.
  destruct (H inner_left_state [] RED E 2 1%Z BLACK 1 3%Z E RED E 3 2%Z E
              eq_refl) as [H1 _].
  exact (Hne (H1 rep_inner_left)).
Qed.

Lemma case2_rotation_witness :
  (fixInsert_body inner_left_state (Some 3)
   = case2_with leftRotate fix_case3_left inner_left_state (Some 3)
   ∧ ∃ st1, leftRotate inner_left_state (Some 2) = Ok st1
            ∧ Rep_z st1 [FL RED 3 2 E; FL BLACK 1 3 E] (T RED E 2 1 E))
  ∧ (fixInsert_body inner_right_state (Some 3)
     = case2_with rightRotate fix_case3_right inner_right_state (Some 3)
     ∧ ∃ st1, rightRotate inner_right_state (Some 2) = Ok st1
              ∧ Rep_z st1 [FR RED E 3 2; FR BLACK E 1 1] (T RED E 2 3 E)).
Proof.
  split.
  - apply (case2_rotation inner_left_state [] RED E 2 1%Z BLACK 1 3%Z E
             RED E 3 2%Z E eq_refl).
    exact rep_inner_left.
  - apply (case2_rotation inner_right_state [] RED E 2 3%Z BLACK 1 1%Z E
             RED E 3 2%Z E eq_refl).
    exact rep_inner_right.
Defined.

Lemma rotation_preserves_witness :
  (∃ st' l, leftRotate three_node_state (Some 1) = Ok st'
            ∧ returns (λ fuel, inorderTraversal fuel three_node_state) l
            ∧ returns (λ fuel, inorderTraversal fuel st') l
            ∧ same_keys_colors three_node_state st')
  ∧ (∃ st' l, rightRotate three_node_state (Some 1) = Ok st'
              ∧ returns (λ fuel, inorderTraversal fuel three_node_state) l
              ∧ returns (λ fuel, inorderTraversal fuel st') l
              ∧ same_keys_colors three_node_state st').
Proof.
  destruct (rotation_preserves three_node_state
              (T BLACK (T RED E 2 10 E) 1 20 (T RED E 3 30 E)) 1) as [Hl Hr].
  - exact rep_three_node.
  - simpl. left.
  - split.
    + apply Hl.
      exists (mkNode (Some 20%Z) BLACK (Some 2) (Some 3) None), 3.
      split; [reflexivity|]. split; [reflexivity|]. unfold NIL. lia.
    + apply Hr.
      exists (mkNode (Some 20%Z) BLACK (Some 2) (Some 3) None), 2.
      split; [reflexivity|]. split; [reflexivity|]. unfold NIL. lia.
Defined.

Lemma search_correct_witness :
  ∃ st, returns (λ fuel, insertAll fuel new_tree [10; 20; 30; 15; 25]%Z) st
        ∧ (∃ a n, returns (λ fuel, search fuel st 15%Z) (Some a)
                  ∧ a ≠ NIL ∧ heap st !! a = Some n ∧ key n = Some 15%Z)
        ∧ returns (λ fuel, search fuel st 100%Z) (Some NIL).
Proof.
  destruct (search_correct [10; 20; 30; 15; 25]%Z) as (st & Hr & Hk).
  exists st. split; [exact Hr|]. split.
  - apply (Hk 15%Z). apply (bool_decide_unpack _). vm_compute. exact I.
  - apply (Hk 100%Z). apply (bool_decide_unpack _). vm_compute. exact I.
Defined.

Lemma insert_terminates_witness :
  (∃ st t st',
     returns (λ fuel, run fuel [OpInsert 3; OpClear; OpInsert 1] new_tree) st
     ∧ Rep st t ∧ insert (S (depth t)) st 2 = Ok st')
  ∧ ∃ st' z' t',
      fixInsert_body inner_left_state (Some 3) = Ok (st', Some (root_of t'))
      ∧ Rep_z st' z' t'
      ∧ (z' = []
         ∨ length z' = 1
           ∧ fixInsert_cond st' (Some (root_of t')) = Ok false).
Proof.
  destruct (insert_terminates [OpInsert 3; OpClear; OpInsert 1]%Z 2%Z)
    as [(st & t & st' & Hr & R & Hi) Hbody].
  split.
  - exists st, t, st'. split; [exact Hr|]. split; [exact R|].
    apply Hi. lia.
  - apply (Hbody inner_left_state _ _ [] _ _ _ _ _ rep_inner_left).
Defined.

(** * Further properties of the class *)

(** ** The keys after a run *)

Lemma exec_keys fuel o st ks :
  well_formed st ks → length ks + 2 ≤ fuel →
  ∃ st', exec fuel o st = Ok st' ∧ well_formed st' (keys_after ks [o]).
Proof.
  intros Hw Hf.
  assert (∀ A (r : result A), r ≠ OutOfFuel →
            ∃ st', after r st = Ok st' ∧ well_formed st' ks) as Hq.
  { intros A r Hr. exists st. by rewrite after_ok. }
  destruct o; simpl;
    try (destruct Hw as (t & n & R & Hb & Hrb & Hs & Hp);
         pose proof (size_keys _ _ Hp);
         apply Hq;
         (apply (queries_terminate st t fuel 0 R); lia)
         || (by apply (queries_terminate st t fuel k R); lia)).
  - apply (well_formed_insert fuel st ks k Hw). lia.
  - by exists st.
  - exists (clear st). split; [done|]. by eapply well_formed_clear.
Qed.

Lemma keys_after_length os : ∀ ks,
  length (keys_after ks os) ≤ length ks + length os.
Proof.
  induction os as [|o os IH]; intros ks; simpl; [lia|].
  destruct o; try (specialize (IH ks); lia).
  - specialize (IH (k :: ks)). simpl in IH. lia.
  - specialize (IH []). simpl in IH. lia.
Qed.

Lemma keys_after_cons o os ks :
  keys_after ks (o :: os) = keys_after (keys_after ks [o]) os.
Proof. by destruct o. Qed.

Lemma run_keys fuel os : ∀ st ks0,
  well_formed st ks0 → length ks0 + length os + 2 ≤ fuel →
  ∃ st', run fuel os st = Ok st' ∧ well_formed st' (keys_after ks0 os).
Proof.
  induction os as [|o os IH]; intros st ks0 Hw Hf.
  { by exists st. }
  cbn [run]. simpl in Hf.
  destruct (exec_keys fuel o st ks0 Hw) as (st1 & -> & Hw1); [lia|].
  rewrite keys_after_cons. apply (IH st1 _ Hw1).
  pose proof (keys_after_length [o] ks0). simpl in *. lia.
Qed.

Lemma run_keys_returns os :
  ∃ st, returns (λ fuel, run fuel os new_tree) st
        ∧ well_formed st (keys_after [] os).
Proof.
  destruct (run_keys (length os + 2) os new_tree [] well_formed_new)
    as (st & Es & Hw); [simpl; lia|].
  exists st. split; [|done]. exists (length os + 2). intros fuel Hf.
  rewrite <- Es. apply (run_fuel _ _ os new_tree [] well_formed_new); simpl; lia.
Qed.

Lemma size_depth t : size t + 1 ≤ 2 ^ depth t.
Proof.
  induction t as [|c l IHl a k r IHr]; simpl; [lia|].
  rewrite Nat.add_1_r with (n := Nat.max _ _). rewrite Nat.pow_succ_r'.
  assert (2 ^ depth l ≤ 2 ^ (depth l `max` depth r))
    by (apply Nat.pow_le_mono_r; lia).
  assert (2 ^ depth r ≤ 2 ^ (depth l `max` depth r))
    by (apply Nat.pow_le_mono_r; lia).
  lia.
Qed.

Lemma well_formed_empty st : well_formed st [] → Rep st E.
Proof.
  intros (t & n & R & _ & _ & _ & Hp). apply Permutation_nil_r in Hp.
  destruct t as [|c l a k r]; [done|]. simpl in Hp.
  by destruct (inorder l).
Qed.

Lemma well_formed_node st k ks :
  well_formed st (k :: ks) →
  ∃ c l a x r, Rep st (T c l a x r)
               ∧ StronglySorted Z.le (inorder (T c l a x r))
               ∧ inorder (T c l a x r) ≡ₚ k :: ks.
Proof.
  intros (t & n & R & _ & _ & Hs & Hp). destruct t as [|c l a x r].
  - simpl in Hp. by apply Permutation_nil_cons in Hp.
  - by exists c, l, a, x, r.
Qed.

(** The head of a sorted list is a lower bound of it, its last element an
    upper bound. *)
Lemma sorted_head_least l m :
  StronglySorted Z.le l → head l = Some m → m ∈ l ∧ Forall (Z.le m) l.
Proof.
  intros Hs Hh. destruct l as [|x l]; [done|]. simpl in Hh. simplify_eq.
  apply StronglySorted_cons in Hs as [Hx _]. split; [left|].
  constructor; [lia | done].
Qed.

Lemma sorted_last_greatest l m :
  StronglySorted Z.le l → last l = Some m → m ∈ l ∧ Forall (λ x, (x ≤ m)%Z) l.
Proof.
  intros Hs Hl. destruct l as [|x l _] using rev_ind; [done|].
  rewrite last_snoc in Hl. simplify_eq.
  apply StronglySorted_app in Hs as (Hlr & _ & _). split.
  - apply elem_of_app. right. left.
  - apply Forall_app. split.
    + apply Forall_forall. intros y Hy. apply Hlr; [done | left].
    + apply Forall_singleton. lia.
Qed.

(** ** Queries after a run *)

(** X1.  The five red-black invariants hold after any sequence of public
    calls on a fresh tree, [clear] and the queries included. *)
Theorem run_red_black (os : list op) :
  ∃ st, returns (λ fuel, run fuel os new_tree) st ∧ red_black st.
Proof.
  destruct (run_keys_returns os) as (st & Hr & t & n & R & Hb & Hrb & _).
  exists st. split; [done|]. exists t, n. split_and!; try done.
  by rewrite (rep_nil _ _ _ R).
Qed.

(** X2.  After any sequence of public calls [inorderTraversal] returns,
    in non-decreasing order, the keys inserted since the last [clear]
    (all inserted keys when there was none). *)
Theorem run_inorderTraversal (os : list op) :
  ∃ st l, returns (λ fuel, run fuel os new_tree) st
          ∧ returns (λ fuel, inorderTraversal fuel st) (Some <$> l)
          ∧ Sorted Z.le l ∧ l ≡ₚ keys_after [] os.
Proof.
  destruct (run_keys_returns os) as (st & Hr & t & n & R & _ & _ & Hs & Hp).
  exists st, (inorder t). split_and!; try done.
  - by apply inorderTraversal_returns.
  - by apply StronglySorted_Sorted.
Qed.

(** X3.  After any sequence of public calls [search] returns a reference
    that is never [null]: for a key inserted since the last [clear] it is
    a node with that key, for every other key it is the sentinel. *)
Theorem run_search (os : list op) :
  ∃ st, returns (λ fuel, run fuel os new_tree) st
        ∧ ∀ k, ∃ a,
            returns (λ fuel, search fuel st k) (Some a)
            ∧ (k ∈ keys_after [] os →
               a ≠ NIL ∧ key <$> heap st !! a = Some (Some k))
            ∧ (k ∉ keys_after [] os → a = NIL).
Proof.
  destruct (run_keys_returns os) as (st & Hr & t & n & R & _ & _ & Hs & Hp).
  exists st. split; [done|]. intros k.
  exists (find k t). destruct (find_spec k t Hs) as [Hin Hout].
  split_and!.
  - by apply search_returns.
  - intros Hk. destruct (Hin ltac:(by rewrite Hp) None) as (nd & Hnd & Hkey).
    split.
    + destruct R as [[_ Hn] _]. simpl in Hn. apply NoDup_cons in Hn as [Hn _].
      intros Heq. apply Hn. rewrite <- Heq. unfold zcells. simpl.
      apply list_elem_of_fmap. by exists (find k t, nd).
    + destruct R as [Hc _].
      rewrite (holds_lookup _ _ (find k t) nd Hc) by (by right).
      simpl. by rewrite Hkey.
  - intros Hk. apply Hout. by rewrite Hp.
Qed.

(** X4.  After any sequence of public calls [isEmpty] is [true] exactly
    when no key has been inserted since the last [clear]. *)
Theorem run_isEmpty (os : list op) :
  ∃ st, returns (λ fuel, run fuel os new_tree) st
        ∧ isEmpty st = bool_decide (keys_after [] os = []).
Proof.
  destruct (run_keys_returns os) as (st & Hr & Hw).
  exists st. split; [done|]. unfold isEmpty.
  destruct (keys_after [] os) as [|k ks].
  - apply well_formed_empty in Hw. destruct Hw as [_ Hroot].
    by rewrite !bool_decide_true.
  - destruct (well_formed_node _ _ _ Hw) as (c & l & a & x & r & R & _).
    pose proof (rep_focus_ne_nil _ _ _ _ _ _ _ R) as Hne.
    destruct R as [_ Hroot]. simpl in Hroot.
    rewrite !bool_decide_false; [done..|congruence].
Qed.

(** X5.  After any sequence of public calls [getMinimum] returns the
    least of the keys inserted since the last [clear]; when there is no
    such key it raises [TypeError]. *)
Theorem run_getMinimum (os : list op) :
  ∃ st, returns (λ fuel, run fuel os new_tree) st
        ∧ match keys_after [] os with
          | [] => throws (λ fuel, getMinimum fuel st)
          | k :: ks =>
            ∃ m, returns (λ fuel, getMinimum fuel st) (Some m)
                 ∧ m ∈ k :: ks ∧ Forall (Z.le m) (k :: ks)
          end.
Proof.
  destruct (run_keys_returns os) as (st & Hr & Hw).
  exists st. split; [done|]. destruct (keys_after [] os) as [|k ks].
  - apply well_formed_empty in Hw. exists 2. intros fuel Hf.
    by apply rep_getMinimum_empty.
  - destruct (well_formed_node _ _ _ Hw) as (c & l & a & x & r & R & Hs & Hp).
    exists (leftmost a x l).2.
    destruct (sorted_head_least _ _ Hs (leftmost_head l a x (inorder r)))
      as [Hin Hle].
    split_and!.
    + exists (S (depth l)). intros fuel Hf. apply (rep_getMinimum _ _ c l a x r R).
      lia.
    + by rewrite <- Hp.
    + by rewrite <- Hp.
Qed.

(** X6.  After any sequence of public calls [getMaximum] returns the
    greatest of the keys inserted since the last [clear]; when there is
    no such key it raises [TypeError]. *)
Theorem run_getMaximum (os : list op) :
  ∃ st, returns (λ fuel, run fuel os new_tree) st
        ∧ match keys_after [] os with
          | [] => throws (λ fuel, getMaximum fuel st)
          | k :: ks =>
            ∃ m, returns (λ fuel, getMaximum fuel st) (Some m)
                 ∧ m ∈ k :: ks ∧ Forall (λ x, (x ≤ m)%Z) (k :: ks)
          end.
Proof.
  destruct (run_keys_returns os) as (st & Hr & Hw).
  exists st. split; [done|]. destruct (keys_after [] os) as [|k ks].
  - apply well_formed_empty in Hw. exists 2. intros fuel Hf.
    by apply rep_getMaximum_empty.
  - destruct (well_formed_node _ _ _ Hw) as (c & l & a & x & r & R & Hs & Hp).
    exists (rightmost a x r).2.
    destruct (sorted_last_greatest _ _ Hs (rightmost_last r a x (inorder l)))
      as [Hin Hle].
    split_and!.
    + exists (S (depth r)). intros fuel Hf. apply (rep_getMaximum _ _ c l a x r R).
      lia.
    + by rewrite <- Hp.
    + by rewrite <- Hp.
Qed.

(** X7.  After any sequence of public calls that leaves [n] keys in the
    tree, [getDepth] returns a depth [d] with [n + 1 ≤ 2^d ≤ (n + 1)^2]:
    the depth is at least [log2 (n + 1)] and at most twice that; it is
    [0] exactly on an empty tree. *)
Theorem run_getDepth (os : list op) :
  ∃ st d, returns (λ fuel, run fuel os new_tree) st
          ∧ returns (λ fuel, getDepth fuel st) d
          ∧ length (keys_after [] os) + 1 ≤ 2 ^ d
          ∧ 2 ^ d ≤ (length (keys_after [] os) + 1) ^ 2.
Proof.
  destruct (run_keys_returns os) as (st & Hr & t & n & R & Hb & Hrb & _ & Hp).
  exists st, (depth t). rewrite <- (size_keys t _ Hp). split_and!; try done.
  - by apply getDepth_returns.
  - apply size_depth.
  - by eapply rb_depth_bound.
Qed.

(** X8.  [search] is logarithmic: after any sequence of public calls
    that leaves [n] keys in the tree it makes at most [d + 1] nested
    calls of [searchHelper], where [d] is the depth that [getDepth]
    returns and [2^d ≤ (n + 1)^2]. *)
Theorem search_steps (os : list op) (k : Z) :
  ∃ st d a, returns (λ fuel, run fuel os new_tree) st
            ∧ returns (λ fuel, getDepth fuel st) d
            ∧ 2 ^ d ≤ (length (keys_after [] os) + 1) ^ 2
            ∧ ∀ fuel, d < fuel → search fuel st k = Ok a.
Proof.
  destruct (run_keys_returns os) as (st & Hr & t & n & R & Hb & Hrb & _ & Hp).
  exists st, (depth t), (Some (find k t)).
  rewrite <- (size_keys t _ Hp). split_and!; try done.
  - by apply getDepth_returns.
  - by eapply rb_depth_bound.
  - intros fuel Hf. unfold search.
    replace (root st) with (root_of t) by (by destruct R).
    by apply (rep_search k t fuel st []).
Qed.

(** ** No method changes a key *)

Lemma same_keys_refl st : same_keys st st.
Proof. done. Qed.

Lemma same_keys_trans st1 st2 st3 :
  same_keys st1 st2 → same_keys st2 st3 → same_keys st1 st3.
Proof. intros H1 H2 a. rewrite H2. apply H1. Qed.

Lemma same_keys_length st st' :
  same_keys st st' → length (heap st') = length (heap st).
Proof.
  intros H.
  destruct (Nat.lt_trichotomy (length (heap st')) (length (heap st)))
    as [Hlt|[?|Hlt]]; [|done|].
  - specialize (H (length (heap st'))).
    rewrite (lookup_ge_None_2 (heap st')) in H by lia.
    apply lookup_lt_is_Some_2 in Hlt as [n Hn]. by rewrite Hn in H.
  - specialize (H (length (heap st))).
    rewrite (lookup_ge_None_2 (heap st)) in H by lia.
    apply lookup_lt_is_Some_2 in Hlt as [n Hn]. by rewrite Hn in H.
Qed.

Lemma wr_same_keys upd st p st' :
  (∀ n, key (upd n) = key n) → wr upd st p = Ok st' → same_keys st st'.
Proof.
  intros Hupd. unfold wr. destruct p as [a|]; [|done].
  destruct (heap st !! a) as [n|] eqn:Ha; [|done].
  intros [= <-] b. simpl. destruct (decide (a = b)) as [->|Hne].
  - rewrite list_lookup_insert_eq by (by eapply lookup_lt_Some).
    rewrite Ha. simpl. by rewrite Hupd.
  - by rewrite list_lookup_insert_ne.
Qed.

Lemma keeps_ok {A} (tree_of : A → RedBlackTree) st v :
  same_keys st (tree_of v) → keeps tree_of (Ok v) st.
Proof. by intros H w [= <-]. Qed.

Lemma keeps_wr upd st st0 p :
  (∀ n, key (upd n) = key n) → same_keys st st0 → keeps id (wr upd st0 p) st.
Proof.
  intros Hupd H st' E. eapply same_keys_trans; [exact H|].
  by eapply wr_same_keys.
Qed.

Lemma keeps_bind {A B} (ta : A → RedBlackTree) (tb : B → RedBlackTree)
  (m : result A) (k : A → result B) st :
  keeps ta m st → (∀ v, same_keys st (ta v) → keeps tb (k v) st) →
  keeps tb (rbind m k) st.
Proof.
  intros Hm Hk w E. destruct m as [v| |]; [|done..].
  apply (Hk v); [by apply Hm | done].
Qed.

Lemma keeps_bind_rd {A B} (tb : B → RedBlackTree) (m : result A)
  (k : A → result B) st :
  (∀ v, keeps tb (k v) st) → keeps tb (rbind m k) st.
Proof. intros Hk w E. destruct m as [v| |]; [|done..]. by apply (Hk v). Qed.

Lemma keeps_rotate (rotate : RedBlackTree → ref → result RedBlackTree)
  st st0 x :
  (∀ st1 y, preserves (rotate st1 y) st1) →
  same_keys st st0 → keeps id (rotate st0 x) st.
Proof.
  intros Hrot H st' E. eapply same_keys_trans; [exact H|].
  intros a. by destruct (Hrot st0 x st' E a).
Qed.

(** [keeps_with tac] walks through a method body bind by bind; [tac]
    closes the calls of methods that have their own lemma. *)
Ltac keeps_with tac :=
  repeat first
    [ tac
    | lazymatch goal with
      | |- keeps _ (rbind (rd _ _ _) _) _ => apply keeps_bind_rd; intros ?
      | |- keeps _ (rbind (is_red _ _) _) _ => apply keeps_bind_rd; intros ?
      | |- keeps _ (rbind (insert_descend _ _ _ _ _) _) _ =>
        apply keeps_bind_rd; intros ?
      end
    | apply keeps_wr; [by intros [] | assumption]
    | apply (keeps_rotate leftRotate);
        [apply leftRotate_preserves | assumption]
    | apply (keeps_rotate rightRotate);
        [apply rightRotate_preserves | assumption]
    | apply keeps_ok; simpl in *; assumption
    | apply (keeps_bind id); [|intros ? ?]
    | apply (keeps_bind fst); [|intros [? ?] ?]
    | progress case_match
    | progress case_decide
    | by intros ? ? ].

Lemma fix_case1_keeps st st0 k u :
  same_keys st st0 → keeps fst (fix_case1 st0 k u) st.
Proof. intros H. unfold fix_case1. keeps_with fail. Qed.

Lemma fix_case3_right_keeps st st0 k :
  same_keys st st0 → keeps id (fix_case3_right st0 k) st.
Proof. intros H. unfold fix_case3_right. keeps_with fail. Qed.

Lemma fix_case3_left_keeps st st0 k :
  same_keys st st0 → keeps id (fix_case3_left st0 k) st.
Proof. intros H. unfold fix_case3_left. keeps_with fail. Qed.

Lemma fixInsert_body_keeps st st0 k :
  same_keys st st0 → keeps fst (fixInsert_body st0 k) st.
Proof.
  intros H. unfold fixInsert_body.
  keeps_with ltac:(first
    [ apply fix_case1_keeps; assumption
    | apply fix_case3_right_keeps; simpl in *; assumption
    | apply fix_case3_left_keeps; simpl in *; assumption ]).
Qed.

Lemma fixInsert_loop_keeps fuel : ∀ st st0 k,
  same_keys st st0 → keeps id (fixInsert_loop fuel st0 k) st.
Proof.
  induction fuel as [|fuel IH]; intros st st0 k H; [by intros ? ?|].
  cbn [fixInsert_loop]. apply keeps_bind_rd. intros [|]; [|by apply keeps_ok].
  apply (keeps_bind fst); [by apply fixInsert_body_keeps|].
  intros [st1 k1] H1. simpl in H1. case_decide; [by apply keeps_ok|].
  by apply IH.
Qed.

Lemma fixInsert_keeps fuel st st0 k :
  same_keys st st0 → keeps id (fixInsert fuel st0 k) st.
Proof.
  intros H. unfold fixInsert.
  apply (keeps_bind id); [by apply fixInsert_loop_keeps|].
  intros st1 H1. apply keeps_wr; [by intros [] | done].
Qed.

Lemma insert_keeps fuel st k :
  keeps id (insert fuel st k) (alloc st (createNode k)).1.
Proof.
  unfold insert, alloc. cbn [fst].
  pose proof (same_keys_refl (mkTree (heap st ++ [createNode k]) (root st))).
  keeps_with ltac:(apply fixInsert_keeps; assumption).
Qed.

(** ** Allocation *)

(** X9.  A call of [insert] that returns has created exactly one object,
    the node with the new key, and has changed the key of no object that
    existed before: keys are written by [createNode] only. *)
Theorem insert_allocates (fuel : nat) (st st' : RedBlackTree) (k : Z) :
  insert fuel st k = Ok st' →
  length (heap st') = S (length (heap st))
  ∧ key <$> heap st' !! length (heap st) = Some (Some k)
  ∧ ∀ a, a < length (heap st) →
         key <$> heap st' !! a = key <$> heap st !! a.
Proof.
  intros Ei. pose proof (insert_keeps fuel st k st' Ei) as Hk.
  unfold alloc, id in Hk. cbn [fst] in Hk. split_and!.
  - rewrite (same_keys_length _ _ Hk). simpl. rewrite length_app. simpl. lia.
  - rewrite Hk. simpl. rewrite lookup_app_r by lia.
    by rewrite Nat.sub_diag.
  - intros a Ha. rewrite Hk. simpl. by rewrite lookup_app_l.
Qed.

(** ** A rotation and its inverse *)

Lemma rep_rotate_left_right st z cx a xa kx cy b ya ky c :
  Rep_z st z (T cx a xa kx (T cy b ya ky c)) →
  ∃ st1 st2, leftRotate st (Some xa) = Ok st1
             ∧ rightRotate st1 (Some ya) = Ok st2
             ∧ Rep_z st2 z (T cx a xa kx (T cy b ya ky c)).
Proof.
  intros R.
  destruct (rep_leftRotate _ _ _ _ _ _ _ _ _ _ _ R) as (st1 & E1 & R1).
  destruct (rep_rightRotate _ _ _ _ _ _ _ _ _ _ _ R1) as (st2 & E2 & R2).
  by exists st1, st2.
Qed.

Lemma rep_rotate_right_left st z cx c xa kx cy a ya ky b :
  Rep_z st z (T cx (T cy a ya ky b) xa kx c) →
  ∃ st1 st2, rightRotate st (Some xa) = Ok st1
             ∧ leftRotate st1 (Some ya) = Ok st2
             ∧ Rep_z st2 z (T cx (T cy a ya ky b) xa kx c).
Proof.
  intros R.
  destruct (rep_rightRotate _ _ _ _ _ _ _ _ _ _ _ R) as (st1 & E1 & R1).
  destruct (rep_leftRotate _ _ _ _ _ _ _ _ _ _ _ R1) as (st2 & E2 & R2).
  by exists st1, st2.
Qed.

(** ** A rotation whose pivot is the sentinel *)

Lemma rep_leftRotate_nil st z cx a xa kx :
  Rep_z st z (T cx a xa kx E) → leftRotate st (Some xa) = TypeError.
Proof.
  intros R. unfold leftRotate. rep_open R.
  heap_rd. heap_rd. heap_wr. heap_rd. by heap_yes.
Qed.

Lemma rep_rightRotate_nil st z cx c xa kx :
  Rep_z st z (T cx E xa kx c) → rightRotate st (Some xa) = TypeError.
Proof.
  intros R. unfold rightRotate. rep_open R.
  heap_rd. heap_rd. heap_wr. heap_rd. by heap_yes.
Qed.

(** ** Levels *)

Lemma zip_levels_nil_r xs : zip_levels xs [] = xs.
Proof. by destruct xs. Qed.

Lemma zip_levels_assoc xs : ∀ ys zs,
  zip_levels xs (zip_levels ys zs) = zip_levels (zip_levels xs ys) zs.
Proof.
  induction xs as [|x xs IH]; intros [|y ys] [|z zs]; simpl; try done.
  by rewrite IH, app_assoc.
Qed.

Lemma queue_levels_app q1 q2 :
  queue_levels (q1 ++ q2) = zip_levels (queue_levels q1) (queue_levels q2).
Proof.
  induction q1 as [|zt q1 IH]; simpl; [done|].
  by rewrite IH, zip_levels_assoc.
Qed.

Lemma queue_levels_subtree z t : queue_levels (subtree z t) = levels t.
Proof. by destruct t. Qed.

(** The first level of a queue of nodes are their keys, the levels below
    are the levels of their children. *)
Lemma queue_levels_step q :
  Forall (λ zt : ctx * tree, zt.2 ≠ E) q → q ≠ [] →
  queue_levels q = queue_roots q :: queue_levels (queue_children q).
Proof.
  induction q as [|[z t] q IH]; intros Hq Hne; [done|].
  apply Forall_cons in Hq as [Ht Hq]. simpl in Ht.
  destruct t as [|c l a k r]; [done|].
  cbn [queue_levels foldr snd levels]. fold (queue_levels q).
  unfold queue_children, queue_roots. cbn [mbind list_bind snd fst].
  fold (queue_children q). fold (queue_roots q).
  rewrite <- app_assoc, !queue_levels_app, !queue_levels_subtree.
  destruct q as [|zt q].
  - simpl. by rewrite !zip_levels_nil_r.
  - rewrite (IH Hq) by done. simpl. by rewrite zip_levels_assoc.
Qed.

Lemma queue_levels_concat q :
  Forall (λ zt : ctx * tree, zt.2 ≠ E) q →
  concat (queue_levels q)
  = queue_roots q ++ concat (queue_levels (queue_children q)).
Proof.
  intros Hq. destruct q as [|zt q]; [done|].
  by rewrite (queue_levels_step _ Hq).
Qed.

Lemma queue_children_rep st q :
  Forall (λ zt, Rep_z st zt.1 zt.2 ∧ zt.2 ≠ E) q →
  Forall (λ zt, Rep_z st zt.1 zt.2 ∧ zt.2 ≠ E) (queue_children q).
Proof.
  induction q as [|[z t] q IH]; intros Hq; [constructor|].
  apply Forall_cons in Hq as [[R Hne] Hq]. simpl in R, Hne.
  destruct t as [|c l a k r]; [done|].
  destruct (rep_children _ _ _ _ _ _ _ R) as [Rl Rr].
  unfold queue_children. cbn [mbind list_bind snd fst].
  rewrite !Forall_app. split_and!; [by apply subtree_rep..|by apply IH].
Qed.

(** The loop on a queue whose front part [q1] is what is left of one
    level and whose back part [q2] are the children pushed so far. *)
Lemma rep_levelOrder_levels st fuel : ∀ q1 q2 acc,
  Forall (λ zt, Rep_z st zt.1 zt.2 ∧ zt.2 ≠ E) (q1 ++ q2) →
  queue_size (q1 ++ q2) < fuel →
  levelOrder_loop fuel st (queue_refs (q1 ++ q2)) acc
  = Ok (acc ++ (Some <$> queue_roots q1
                         ++ concat (queue_levels (q2 ++ queue_children q1)))).
Proof.
  induction fuel as [|fuel IH]; intros q1 q2 acc Hq Hf; [lia|].
  assert (∀ zt q1' q2' acc',
            Forall (λ zt, Rep_z st zt.1 zt.2 ∧ zt.2 ≠ E) ((zt :: q1') ++ q2') →
            queue_size ((zt :: q1') ++ q2') < S fuel →
            levelOrder_loop (S fuel) st (queue_refs ((zt :: q1') ++ q2')) acc'
            = Ok (acc' ++ (Some <$> queue_roots (zt :: q1')
                    ++ concat (queue_levels
                                 (q2' ++ queue_children (zt :: q1')))))) as Hc.
  { clear q1 q2 acc Hq Hf. intros [z t] q1 q2 acc Hq Hf.
    cbn [levelOrder_loop app]. simpl in Hq.
    apply Forall_cons in Hq as [[R Hne] Hq]. simpl in R, Hne.
    destruct t as [|c l a k r]; [done|].
    destruct (rep_children _ _ _ _ _ _ _ R) as [Rl Rr].
    pose proof (rep_focus _ _ _ _ _ _ _ R) as Ha.
    cbn [queue_refs fmap list_fmap snd root_of].
    rewrite (rd_lookup _ _ _ _ Ha). cbn [rbind key node_of].
    rewrite (rd_lookup _ _ _ _ Ha). cbn [rbind left node_of].
    fold (queue_refs (q1 ++ q2)). rewrite (push_child _ _ _ _ Rl).
    rewrite (rd_lookup _ _ _ _ Ha). cbn [rbind right node_of].
    rewrite (push_child _ _ _ _ Rr).
    rewrite <- !app_assoc.
    rewrite (IH q1 (q2 ++ subtree (FL c a k r :: z) l
                       ++ subtree (FR c l a k :: z) r) (acc ++ [Some k])).
    - f_equal.
      replace (queue_children ((z, T c l a k r) :: q1))
        with (subtree (FL c a k r :: z) l ++ subtree (FR c l a k :: z) r
                ++ queue_children q1)
        by (unfold queue_children; cbn [mbind list_bind snd fst];
            by rewrite <- app_assoc).
      by rewrite <- !app_assoc.
    - rewrite !Forall_app in *.
      destruct Hq as [H1 H2]. split_and!; try done; by apply subtree_rep.
    - unfold queue_size in *. rewrite !sum_list_with_app in *.
      fold (queue_size (subtree (FL c a k r :: z) l)).
      fold (queue_size (subtree (FR c l a k :: z) r)).
      rewrite !subtree_size. simpl in Hf. lia. }
  destruct q1 as [|zt q1]; [|by apply Hc].
  destruct q2 as [|zt q2].
  { simpl. by rewrite app_nil_r. }
  pose proof (Hc zt q2 [] acc) as Hc'. rewrite app_nil_r in Hc'.
  change ([] ++ zt :: q2) with (zt :: q2) in *.
  change (queue_roots []) with (@nil Z).
  change (queue_children []) with (@nil (ctx * tree)).
  rewrite app_nil_r, Hc' by done.
  rewrite (queue_levels_concat (zt :: q2)); [done|].
  eapply Forall_impl; [exact Hq|]. by intros ? [_ ?].
Qed.

(** ** Rotations, levels and orders *)

(** X10.  A right rotation around the node that a left rotation has moved
    up restores the tree: the same nodes in the same places with the same
    colors; and likewise a left rotation after a right rotation. *)
Theorem rotation_round_trip (st : RedBlackTree) (t : tree) (x : nat) :
  Rep st t → x ∈ addrs t →
  (child_is_node right st x →
   ∃ y st1 st2, rd right st (Some x) = Ok (Some y)
                ∧ leftRotate st (Some x) = Ok st1
                ∧ rightRotate st1 (Some y) = Ok st2
                ∧ Rep st2 t)
  ∧ (child_is_node left st x →
     ∃ y st1 st2, rd left st (Some x) = Ok (Some y)
                  ∧ rightRotate st (Some x) = Ok st1
                  ∧ leftRotate st1 (Some y) = Ok st2
                  ∧ Rep st2 t).
Proof.
  intros R Hx. destruct (focus_addr t x Hx) as (z & c & l & k & r & <-).
  apply rep_plug in R. pose proof (rep_focus _ _ _ _ _ _ _ R) as Ha.
  split; intros (n & y & Hn & Hy & Hne); rewrite Ha in Hn; simplify_eq/=.
  - destruct r as [|cy b y ky cc]; [done|].
    destruct (rep_rotate_left_right _ _ _ _ _ _ _ _ _ _ _ R)
      as (st1 & st2 & E1 & E2 & R2).
    exists y, st1, st2. split_and!; try done.
    + by rewrite (rd_lookup _ _ _ _ Ha).
    + exact (proj1 (rep_plug _ _ _) R2).
  - destruct l as [|cy a y ky b]; [done|].
    destruct (rep_rotate_right_left _ _ _ _ _ _ _ _ _ _ _ R)
      as (st1 & st2 & E1 & E2 & R2).
    exists y, st1, st2. split_and!; try done.
    + by rewrite (rd_lookup _ _ _ _ Ha).
    + exact (proj1 (rep_plug _ _ _) R2).
Qed.

(** X11.  A rotation around a node of the tree whose child on the side
    of the pivot is the sentinel raises [TypeError]: the sentinel's
    [left] and [right] fields are [null], and the rotation writes to the
    [parent] field of that [null]. *)
Theorem rotation_sentinel_pivot (st : RedBlackTree) (t : tree) (x : nat) :
  Rep st t → x ∈ addrs t →
  (child_is_nil right st x → leftRotate st (Some x) = TypeError)
  ∧ (child_is_nil left st x → rightRotate st (Some x) = TypeError).
Proof.
  intros R Hx. destruct (focus_addr t x Hx) as (z & c & l & k & r & <-).
  apply rep_plug in R. pose proof (rep_focus _ _ _ _ _ _ _ R) as Ha.
  split; intros (n & Hn & Hy); rewrite Ha in Hn; simplify_eq/=.
  - destruct r as [|cy b y ky cc].
    + by eapply rep_leftRotate_nil.
    + destruct (rep_children _ _ _ _ _ _ _ R) as [_ Rr].
      by destruct (rep_focus_ne_nil _ _ _ _ _ _ _ Rr).
  - destruct l as [|cy a y ky b].
    + by eapply rep_rightRotate_nil.
    + destruct (rep_children _ _ _ _ _ _ _ R) as [Rl _].
      by destruct (rep_focus_ne_nil _ _ _ _ _ _ _ Rl).
Qed.

(** X12.  [levelOrderTraversal] returns the keys level by level from the
    root down, and within a level from left to right. *)
Theorem levelOrderTraversal_levels (st : RedBlackTree) (t : tree) :
  Rep st t →
  returns (λ fuel, levelOrderTraversal fuel st) (Some <$> concat (levels t)).
Proof.
  intros R. destruct t as [|c l a k r].
  - exists 0. intros fuel _. unfold levelOrderTraversal.
    destruct R as [_ ->]. done.
  - apply returns_intro with (S (size (T c l a k r))).
    + unfold levelOrderTraversal. intros m w. case_decide; [done|].
      apply levelOrder_loop_mono.
    + unfold levelOrderTraversal.
      pose proof (rep_focus_ne_nil _ _ _ _ _ _ _ R).
      assert (root st = a) as -> by (by destruct R).
      rewrite decide_False by done.
      etrans.
      { apply (rep_levelOrder_levels st _ [([], T c l a k r)] [] []).
        - apply Forall_singleton. by split.
        - unfold queue_size. simpl. lia. }
      cbn [app]. do 2 f_equal.
      change (queue_roots [([], T c l a k r)]) with [k].
      change (queue_children [([], T c l a k r)])
        with ((subtree [FL c a k r] l ++ subtree [FR c l a k] r) ++ []).
      rewrite app_nil_r, queue_levels_app, !queue_levels_subtree. done.
Qed.


(** X14.  On the tree that the arena represents, [preorderTraversal]
    returns the key of a node before the keys of its left and then of its
    right subtree, [inorderTraversal] between them, and
    [postorderTraversal] after them. *)
Theorem traversal_orders (st : RedBlackTree) (t : tree) :
  Rep st t →
  returns (λ fuel, preorderTraversal fuel st) (Some <$> preorder t)
  ∧ returns (λ fuel, inorderTraversal fuel st) (Some <$> inorder t)
  ∧ returns (λ fuel, postorderTraversal fuel st) (Some <$> postorder t).
Proof.
  intros R. split_and!.
  - by apply preorderTraversal_returns.
  - by apply inorderTraversal_returns.
  - by apply postorderTraversal_returns.
Qed.

(** X15.  [getDepth] returns the number of nodes on the longest path from
    the root down to a leaf, [0] for an empty tree. *)
Theorem getDepth_height (st : RedBlackTree) (t : tree) :
  Rep st t → returns (λ fuel, getDepth fuel st) (depth t).
Proof.
  intros R. exists (S (depth t)). intros fuel Hf. unfold getDepth.
  replace (root st) with (root_of t) by (by destruct R).
  apply (rep_getDepth t fuel st [] R). lia.
Qed.

(** X16.  The membership test of [demo.ts], [search(k) !== null], is
    [true] for every key, inserted or not: [search] returns the sentinel
    object for a missing key, never [null]. *)
Theorem search_not_null_true (os : list op) (k : Z) :
  ∃ st, returns (λ fuel, run fuel os new_tree) st
        ∧ returns (λ fuel, search_not_null fuel st k) true.
Proof.
  destruct (run_keys_returns os) as (st & Hr & t & n & R & _).
  exists st. split; [done|].
  destruct (search_returns st t k R) as [m Hm].
  exists m. intros fuel Hf. unfold search_not_null. by rewrite Hm.
Qed.

(** ** Instances *)

Lemma rep_four_node :
  Rep four_node_state
    (T BLACK (T BLACK (T RED E 4 5 E) 2 10 E) 1 20 (T BLACK E 3 30 E)).
Proof. rep_concrete. Defined.

Example four_node_reached :
  insertAll 4 new_tree [20; 10; 30; 5]%Z = Ok four_node_state.
Proof. vm_compute. reflexivity. Qed.

Lemma run_search_witness :
  ∃ st, returns (λ fuel, run fuel [OpInsert 5; OpClear; OpInsert 7] new_tree) st
        ∧ (∃ a, returns (λ fuel, search fuel st 7%Z) (Some a)
                ∧ a ≠ NIL ∧ key <$> heap st !! a = Some (Some 7%Z))
        ∧ (∃ a, returns (λ fuel, search fuel st 5%Z) (Some a) ∧ a = NIL).
Proof.
  destruct (run_search [OpInsert 5; OpClear; OpInsert 7]) as (st & Hr & Hk).
  exists st. split; [exact Hr|]. split.
  - destruct (Hk 7%Z) as (a & Hs & Hin & _). exists a. split; [exact Hs|].
    apply Hin. apply (bool_decide_unpack _). vm_compute. exact I.
  - destruct (Hk 5%Z) as (a & Hs & _ & Hout). exists a. split; [exact Hs|].
    apply Hout. apply (bool_decide_unpack _). vm_compute. exact I.
Defined.

Lemma insert_allocates_witness :
  length (heap four_node_state) = S (length (heap three_node_state))
  ∧ key <$> heap four_node_state !! length (heap three_node_state)
    = Some (Some 5%Z)
  ∧ ∀ a, a < length (heap three_node_state) →
         key <$> heap four_node_state !! a
         = key <$> heap three_node_state !! a.
Proof.
  apply (insert_allocates 3 three_node_state four_node_state 5%Z).
  vm_compute. reflexivity.
Defined.

Lemma rotation_round_trip_witness :
  (∃ y st1 st2, rd right three_node_state (Some 1) = Ok (Some y)
                ∧ leftRotate three_node_state (Some 1) = Ok st1
                ∧ rightRotate st1 (Some y) = Ok st2
                ∧ Rep st2 (T BLACK (T RED E 2 10 E) 1 20 (T RED E 3 30 E)))
  ∧ (∃ y st1 st2, rd left three_node_state (Some 1) = Ok (Some y)
                  ∧ rightRotate three_node_state (Some 1) = Ok st1
                  ∧ leftRotate st1 (Some y) = Ok st2
                  ∧ Rep st2 (T BLACK (T RED E 2 10 E) 1 20 (T RED E 3 30 E))).
Proof.
  destruct (rotation_round_trip three_node_state
              (T BLACK (T RED E 2 10 E) 1 20 (T RED E 3 30 E)) 1) as [Hl Hr].
  - exact rep_three_node.
  - simpl. left.
  - split.
    + apply Hl.
      exists (mkNode (Some 20%Z) BLACK (Some 2) (Some 3) None), 3.
      split; [reflexivity|]. split; [reflexivity|]. unfold NIL. lia.
    + apply Hr.
      exists (mkNode (Some 20%Z) BLACK (Some 2) (Some 3) None), 2.
      split; [reflexivity|]. split; [reflexivity|]. unfold NIL. lia.
Defined.

Lemma rotation_sentinel_pivot_witness :
  leftRotate four_node_state (Some 2) = TypeError
  ∧ rightRotate four_node_state (Some 3) = TypeError.
Proof.
  split.
  - apply (rotation_sentinel_pivot four_node_state _ 2 rep_four_node).
    + simpl. right. left.
    + exists (mkNode (Some 10%Z) BLACK (Some 4) (Some NIL) (Some 1)).
      split; reflexivity.
  - apply (rotation_sentinel_pivot four_node_state _ 3 rep_four_node).
    + simpl. do 3 right. left.
    + exists (mkNode (Some 30%Z) BLACK (Some NIL) (Some NIL) (Some 1)).
      split; reflexivity.
Defined.

Lemma levelOrderTraversal_levels_witness :
  returns (λ fuel, levelOrderTraversal fuel four_node_state)
    [Some 20; Some 10; Some 30; Some 5]%Z.
Proof. exact (levelOrderTraversal_levels four_node_state _ rep_four_node). Defined.


Lemma traversal_orders_witness :
  returns (λ fuel, preorderTraversal fuel four_node_state)
    [Some 20; Some 10; Some 5; Some 30]%Z
  ∧ returns (λ fuel, inorderTraversal fuel four_node_state)
      [Some 5; Some 10; Some 20; Some 30]%Z
  ∧ returns (λ fuel, postorderTraversal fuel four_node_state)
      [Some 5; Some 10; Some 30; Some 20]%Z.
Proof. exact (traversal_orders four_node_state _ rep_four_node). Defined.

Lemma getDepth_height_witness :
  returns (λ fuel, getDepth fuel four_node_state) 3.
Proof. exact (getDepth_height four_node_state _ rep_four_node). Defined.

Lemma search_steps_witness :
  ∃ st d a,
    returns (λ fuel, run fuel [OpInsert 20; OpInsert 10; OpInsert 30] new_tree)
      st
    ∧ returns (λ fuel, getDepth fuel st) d
    ∧ 2 ^ d ≤ 16
    ∧ search (S d) st 30%Z = Ok a.
Proof.
  destruct (search_steps [OpInsert 20; OpInsert 10; OpInsert 30] 30%Z)
    as (st & d & a & Hr & Hd & Hb & Hs).
  exists st, d, a. split; [exact Hr|]. split; [exact Hd|].
  split; [exact Hb|]. apply Hs. lia.
Defined.

Lemma rep_red_uncle_left :
  Rep_z red_uncle_left_state
    [FL RED 2 10 E; FL BLACK 1 20 (T RED E 3 30 E)] (T RED E 4 5 E).
Proof. rep_concrete. Defined.

Lemma rep_red_uncle_right :
  Rep_z red_uncle_right_state
    [FR RED E 3 30; FR BLACK (T RED E 2 10 E) 1 20] (T RED E 4 35 E).
Proof. rep_concrete. Defined.

Lemma rep_outer_left :
  Rep_z outer_left_state [FL RED 2 2 E; FL BLACK 1 3 E] (T RED E 3 1 E).
Proof. rep_concrete. Defined.

Lemma rep_outer_right :
  Rep_z outer_right_state [FR RED E 2 2; FR BLACK E 1 1] (T RED E 3 3 E).
Proof. rep_concrete. Defined.

(** The four states are the ones in which [insert] calls [fixInsert]:
    the [insert] calls give what one pass of the loop body on them,
    followed by the blackening of the root, gives. *)
Example red_uncle_left_reached :
  insertAll 4 new_tree [20; 10; 30; 5]%Z
  = (p ←r fixInsert_body red_uncle_left_state (Some 4);
     wr (set_color BLACK) p.1 (Some (root p.1))).
Proof. vm_compute. reflexivity. Qed.

Example red_uncle_right_reached :
  insertAll 4 new_tree [20; 10; 30; 35]%Z
  = (p ←r fixInsert_body red_uncle_right_state (Some 4);
     wr (set_color BLACK) p.1 (Some (root p.1))).
Proof. vm_compute. reflexivity. Qed.

Example outer_left_reached :
  insertAll 3 new_tree [3; 2; 1]%Z
  = (p ←r fixInsert_body outer_left_state (Some 3);
     wr (set_color BLACK) p.1 (Some (root p.1))).
Proof. vm_compute. reflexivity. Qed.

Example outer_right_reached :
  insertAll 3 new_tree [1; 2; 3]%Z
  = (p ←r fixInsert_body outer_right_state (Some 3);
     wr (set_color BLACK) p.1 (Some (root p.1))).
Proof. vm_compute. reflexivity. Qed.

(** ** Case 1 and Case 3 of the fix-up *)

(** X17.  Case 1 of the fix-up.  When the uncle is red, one pass of the
    loop paints the parent and the uncle black and the grandparent red,
    moves no node, and continues at the grandparent. *)
Theorem case1_recolors st f1 z cg ga gk ul ua uk ur ck lk ka kk rk :
  (Rep_z st (f1 :: FL cg ga gk (T RED ul ua uk ur) :: z) (T ck lk ka kk rk) →
   ∃ st', fixInsert_body st (Some ka) = Ok (st', Some ga)
          ∧ Rep_z st' z
              (T RED (plug1 (frame_paint BLACK f1) (T ck lk ka kk rk))
                 ga gk (T BLACK ul ua uk ur)))
  ∧ (Rep_z st (f1 :: FR cg (T RED ul ua uk ur) ga gk :: z)
       (T ck lk ka kk rk) →
     ∃ st', fixInsert_body st (Some ka) = Ok (st', Some ga)
            ∧ Rep_z st' z
                (T RED (T BLACK ul ua uk ur) ga gk
                   (plug1 (frame_paint BLACK f1) (T ck lk ka kk rk)))).
Proof.
  split; intros R; exact (rep_fix_body _ _ _ _ _ _ _ _ _ R).
Qed.

(** X18.  Case 3 of the fix-up.  When the uncle is black and the current
    node is an outer grandchild, one pass of the loop paints the parent
    black and the grandparent red and rotates the grandparent away from
    the current node: the parent takes the grandparent's place, the
    grandparent becomes its other child, and the current node stays the
    current node, now below a black parent. *)
Theorem case3_rotates st z cp s pa pk cg ga gk u ck lk ka kk rk :
  tree_color u = BLACK →
  (Rep_z st (FL cp pa pk s :: FL cg ga gk u :: z) (T ck lk ka kk rk) →
   ∃ st', fixInsert_body st (Some ka) = Ok (st', Some ka)
          ∧ Rep_z st' (FL BLACK pa pk (T RED s ga gk u) :: z)
              (T ck lk ka kk rk))
  ∧ (Rep_z st (FR cp s pa pk :: FR cg u ga gk :: z) (T ck lk ka kk rk) →
     ∃ st', fixInsert_body st (Some ka) = Ok (st', Some ka)
            ∧ Rep_z st' (FR BLACK (T RED u ga gk s) pa pk :: z)
                (T ck lk ka kk rk)).
Proof.
  intros Hu. split; intros R;
    pose proof (rep_fix_body _ _ _ _ _ _ _ _ _ R) as H;
    by destruct u as [|[] ul ua uk ur].
Qed.

Lemma case1_recolors_witness :
  (∃ st', fixInsert_body red_uncle_left_state (Some 4) = Ok (st', Some 1)
          ∧ Rep_z st' []
              (T RED (T BLACK (T RED E 4 5 E) 2 10 E) 1 20 (T BLACK E 3 30 E)))
  ∧ (∃ st', fixInsert_body red_uncle_right_state (Some 4) = Ok (st', Some 1)
            ∧ Rep_z st' []
                (T RED (T BLACK E 2 10 E) 1 20
                   (T BLACK E 3 30 (T RED E 4 35 E)))).
Proof.
  split.
  - apply (case1_recolors red_uncle_left_state (FL RED 2 10%Z E) [] BLACK 1
             20%Z E 3 30%Z E RED E 4 5%Z E).
    exact rep_red_uncle_left.
  - apply (case1_recolors red_uncle_right_state (FR RED E 3 30%Z) [] BLACK 1
             20%Z E 2 10%Z E RED E 4 35%Z E).
    exact rep_red_uncle_right.
Defined.

Lemma case3_rotates_witness :
  (∃ st', fixInsert_body outer_left_state (Some 3) = Ok (st', Some 3)
          ∧ Rep_z st' [FL BLACK 2 2 (T RED E 1 3 E)] (T RED E 3 1 E))
  ∧ (∃ st', fixInsert_body outer_right_state (Some 3) = Ok (st', Some 3)
            ∧ Rep_z st' [FR BLACK (T RED E 1 1 E) 2 2] (T RED E 3 3 E)).
Proof.
  split.
  - apply (case3_rotates outer_left_state [] RED E 2 2%Z BLACK 1 3%Z E
             RED E 3 1%Z E eq_refl).
    exact rep_outer_left.
  - apply (case3_rotates outer_right_state [] RED E 2 2%Z BLACK 1 1%Z E
             RED E 3 3%Z E eq_refl).
    exact rep_outer_right.
Defined.
